(** * RiverSense: WKT parsing, bounds, label placement and viewport projection

    A shallow embedding of the geometry core of [App.tsx]
    ([parseWKTPolygon], [getBounds], [findOptimalLabelPosition],
    [processWKT], [transform], [toSVG]) together with the properties
    stated about it.

    Conventions of the model.
    - A JavaScript string is a sequence of UTF-16 code units; a code unit
      is a number of type [N].
    - A JavaScript number is a binary64 value: the rational that a finite
      double stands for, or one of NaN, +Infinity and -Infinity.  The
      results of [+], [-], [*], [/] and of [Number] on a literal are
      rounded to the nearest double, ties to even, and overflow to an
      infinity.  The sign of zero is not represented: a zero divisor is a
      positive zero.
    - The handlers return the state they leave and the callback they hand
      to [setTimeout], if any; the callback is applied to the state that
      is current when the timer fires.
    - A call that spreads an array into its arguments throws a RangeError
      when the array is longer than the engine accepts; the bound is the
      parameter [max_arguments].
    - A coordinate read out of a destructured array may be [undefined];
      it is coerced with [ToNumber] where the language does so. *)

From Stdlib Require Import String List NArith ZArith QArith Qminmax Qpower Bool Lia Lqa.
Import ListNotations.

Set Implicit Arguments.

(** ** JavaScript numbers *)

Module JSNumber.

Inductive num : Type :=
| Fin (q : Q)
| NaN
| PInf
| NInf.

Definition zero : num := Fin 0.

(** An integer literal of the source, and the length of an array: integers
    that binary64 holds exactly (a length is below [2 ^ 32]). *)
Definition of_Z (z : Z) : num := Fin (inject_Z z).

Definition of_nat (n : nat) : num := of_Z (Z.of_nat n).

Definition Qis_zero (q : Q) : bool := Qeq_bool q 0.

Definition Qneg_b (q : Q) : bool := negb (Qle_bool 0 q).

Definition Qlt_b (a b : Q) : bool := negb (Qle_bool b a).

Definition neg (a : num) : num :=
  match a with
  | Fin q => Fin (- q)
  | NaN => NaN
  | PInf => NInf
  | NInf => PInf
  end.

(** *** Rounding to binary64 *)

(** The integer [e] with [2 ^ e <= n / d < 2 ^ (e + 1)]. *)
Definition floor_log2 (n d : positive) : Z :=
  let k := (Z.log2 (Zpos n) - Z.log2 (Zpos d))%Z in
  if Qle_bool (2 ^ k) (Zpos n # d) then k else (k - 1)%Z.

(** The integer nearest to [num / den], the even one of two at a tie. *)
Definition round_half_even (num den : Z) : Z :=
  let q := (num / den)%Z in
  match (2 * (num mod den) ?= den)%Z with
  | Lt => q
  | Gt => (q + 1)%Z
  | Eq => if Z.even q then q else (q + 1)%Z
  end.

(** The integer nearest to [(n / d) / 2 ^ ex]. *)
Definition scaled_mantissa (n d : positive) (ex : Z) : Z :=
  if (0 <=? ex)%Z then round_half_even (Zpos n) (Zpos d * 2 ^ ex)
  else round_half_even (Zpos n * 2 ^ (- ex)) (Zpos d).

(** The double nearest to [n / d]: a significand of 53 bits, the unit in
    the last place no less than [2 ^ -1074], and +Infinity from
    [2 ^ 1024] on.  The rational of the result is in lowest terms. *)
Definition round_pos (n d : positive) : num :=
  let e := floor_log2 n d in
  let ex := Z.max (e - 52) (-1074) in
  let v := Qred (inject_Z (scaled_mantissa n d ex) * 2 ^ ex) in
  if Qle_bool (2 ^ 1024) v then PInf else Fin v.

(** The double nearest to [q]. *)
Definition round (q : Q) : num :=
  match Qred q with
  | Z0 # _ => Fin 0
  | Zpos n # d => round_pos n d
  | Zneg n # d => neg (round_pos n d)
  end.

(** *** The operators *)

(** [a + b] *)
Definition add (a b : num) : num :=
  match a, b with
  | NaN, _ | _, NaN => NaN
  | Fin p, Fin q => round (p + q)
  | PInf, NInf | NInf, PInf => NaN
  | PInf, _ | _, PInf => PInf
  | NInf, _ | _, NInf => NInf
  end.

(** [a - b] *)
Definition sub (a b : num) : num := add a (neg b).

(** The infinity that has the sign of [q] times the sign of [pos]. *)
Definition signed_inf (pos : bool) (q : Q) : num :=
  if Bool.eqb (Qneg_b q) pos then NInf else PInf.

(** [a * b] *)
Definition mul (a b : num) : num :=
  match a, b with
  | NaN, _ | _, NaN => NaN
  | Fin p, Fin q => round (p * q)
  | Fin p, PInf | PInf, Fin p => if Qis_zero p then NaN else signed_inf true p
  | Fin p, NInf | NInf, Fin p => if Qis_zero p then NaN else signed_inf false p
  | PInf, PInf | NInf, NInf => PInf
  | PInf, NInf | NInf, PInf => NInf
  end.

(** [a / b]; a zero divisor is a positive zero. *)
Definition div (a b : num) : num :=
  match a, b with
  | NaN, _ | _, NaN => NaN
  | Fin p, Fin q =>
      if Qis_zero q
      then if Qis_zero p then NaN else signed_inf true p
      else round (p / q)
  | Fin _, (PInf | NInf) => Fin 0
  | PInf, Fin q => signed_inf true q
  | NInf, Fin q => signed_inf false q
  | (PInf | NInf), (PInf | NInf) => NaN
  end.

(** [a < b]; false as soon as one side is NaN. *)
Definition ltb (a b : num) : bool :=
  match a, b with
  | NaN, _ | _, NaN => false
  | Fin p, Fin q => Qlt_b p q
  | NInf, (Fin _ | PInf) => true
  | Fin _, PInf => true
  | _, _ => false
  end.

(** [a === b] on numbers. *)
Definition strict_eq (a b : num) : bool :=
  match a, b with
  | Fin p, Fin q => Qeq_bool p q
  | PInf, PInf | NInf, NInf => true
  | _, _ => false
  end.

(** One step of [Math.min]: NaN is absorbing, otherwise keep the lower. *)
Definition min_step (lowest n : num) : num :=
  match lowest, n with
  | NaN, _ | _, NaN => NaN
  | _, _ => if ltb n lowest then n else lowest
  end.

Definition max_step (highest n : num) : num :=
  match highest, n with
  | NaN, _ | _, NaN => NaN
  | _, _ => if ltb highest n then n else highest
  end.

End JSNumber.

Import JSNumber.

Declare Scope num_scope.
Delimit Scope num_scope with num.
Bind Scope num_scope with num.
Infix "+" := add : num_scope.
Infix "-" := sub : num_scope.
Infix "*" := mul : num_scope.
Infix "/" := div : num_scope.
Infix "===" := strict_eq (at level 70, no associativity) : num_scope.

(** ** Run-time values of a number slot *)

(** The element read at an index of an array of numbers: the number, or
    [undefined] past the end. *)
Inductive value : Type :=
| Undefined
| Number (n : num).

Definition ToNumber (v : value) : num :=
  match v with
  | Undefined => NaN
  | Number n => n
  end.

(** [Math.min(...args)] and [Math.max(...args)]: the arguments are coerced,
    the running extremum starts at an infinity. *)
Definition Math_min (args : list value) : num :=
  fold_left min_step (map ToNumber args) PInf.

Definition Math_max (args : list value) : num :=
  fold_left max_step (map ToNumber args) NInf.

(** [const [a, b] = arr]: the element at index [i], or [undefined]. *)
Definition destructure (i : nat) (arr : list num) : value :=
  match nth_error arr i with
  | Some n => Number n
  | None => Undefined
  end.

(** ** JavaScript strings *)

Module JSString.

Definition code_unit : Type := N.
Definition jsstring : Type := list code_unit.

(** A literal of the source, as code units. *)
Definition str (s : string) : jsstring :=
  map Ascii.N_of_ascii (list_ascii_of_string s).

Local Open Scope N_scope.

(** WhiteSpace and LineTerminator: what [trim] removes and [\s] matches. *)
Definition is_space (c : code_unit) : bool :=
  existsb (N.eqb c)
    [9; 10; 11; 12; 13; 32; 160; 5760; 8232; 8233; 8239; 8287; 12288; 65279]
  || ((8192 <=? c) && (c <=? 8202)).

Fixpoint trimStart (s : jsstring) : jsstring :=
  match s with
  | [] => []
  | c :: r => if is_space c then trimStart r else s
  end.

Definition trimEnd (s : jsstring) : jsstring := rev (trimStart (rev s)).

Definition trim (s : jsstring) : jsstring := trimEnd (trimStart s).

(** Case folding of the [i] flag, on the code units that fold onto an
    ASCII capital: only the ASCII small letters do. *)
Definition canonicalize (c : code_unit) : code_unit :=
  if (97 <=? c) && (c <=? 122) then c - 32 else c.

(** Match the capitals [lit] at the head of [s], ignoring case; the rest
    of [s] after the match. *)
Fixpoint match_ignore_case (lit s : jsstring) : option jsstring :=
  match lit, s with
  | [], _ => Some s
  | _ :: _, [] => None
  | l :: lit', c :: s' =>
      if canonicalize c =? l then match_ignore_case lit' s' else None
  end.

Definition lparen : code_unit := 40.
Definition rparen : code_unit := 41.
Definition comma : code_unit := 44.

(** [s.replace(/^POLYGON\s*\(\(/i, '')] *)
Definition replace_polygon_prefix (s : jsstring) : jsstring :=
  match match_ignore_case (str "POLYGON") s with
  | Some r =>
      match trimStart r with
      | c1 :: c2 :: r' => if (c1 =? lparen) && (c2 =? lparen) then r' else s
      | _ => s
      end
  | None => s
  end.

(** [s.replace(/\)\)$/i, '')] *)
Definition replace_ring_suffix (s : jsstring) : jsstring :=
  match rev s with
  | c1 :: c2 :: r => if (c1 =? rparen) && (c2 =? rparen) then rev r else s
  | _ => s
  end.

(** Put [c] in front of the first fragment. *)
Definition cons_head (c : code_unit) (l : list jsstring) : list jsstring :=
  match l with
  | t :: ts => (c :: t) :: ts
  | [] => [[c]]
  end.

(** [s.split(sep)] for a separator of one code unit. *)
Fixpoint split (sep : code_unit) (s : jsstring) : list jsstring :=
  match s with
  | [] => [[]]
  | c :: r => if c =? sep then [] :: split sep r else cons_head c (split sep r)
  end.

(** [s.split(/\s+/)]: a run of white space is one separator. *)
Fixpoint split_spaces (s : jsstring) : list jsstring :=
  match s with
  | [] => [[]]
  | c :: r =>
      if is_space c then
        match r with
        | c' :: _ => if is_space c' then split_spaces r else [] :: split_spaces r
        | [] => [] :: split_spaces r
        end
      else cons_head c (split_spaces r)
  end.

End JSString.

Import JSString.

(** ** [Number(s)] on a string: StringToNumber *)

Module StringNumericLiteral.

Local Open Scope N_scope.

Definition is_digit (c : code_unit) : bool := (48 <=? c) && (c <=? 57).

Definition is_hex_digit (c : code_unit) : bool :=
  is_digit c || ((97 <=? c) && (c <=? 102)) || ((65 <=? c) && (c <=? 70)).

Definition is_octal_digit (c : code_unit) : bool := (48 <=? c) && (c <=? 55).

Definition is_binary_digit (c : code_unit) : bool := (48 <=? c) && (c <=? 49).

(** The value of a digit of any of the four bases. *)
Definition digit_value (c : code_unit) : Z :=
  Z.of_N (if is_digit c then c - 48
          else if (97 <=? c) && (c <=? 102) then c - 87
          else c - 55).

Definition digits_value (base : Z) (ds : jsstring) : Z :=
  fold_left (fun acc d => (base * acc + digit_value d)%Z) ds 0%Z.

(** The longest prefix whose code units satisfy [f], and the rest. *)
Fixpoint span (f : code_unit -> bool) (s : jsstring) : jsstring * jsstring :=
  match s with
  | [] => ([], [])
  | c :: r =>
      if f c then let (a, b) := span f r in (c :: a, b) else ([], s)
  end.

Definition is_nil (s : jsstring) : bool :=
  match s with [] => true | _ => false end.

Definition jsstring_eqb (a b : jsstring) : bool :=
  if list_eq_dec N.eq_dec a b then true else false.

(** [10 ^ e] for an exponent of either sign. *)
Definition pow10 (e : Z) : Q :=
  if (0 <=? e)%Z then inject_Z (10 ^ e) else 1 # Z.to_pos (10 ^ (- e)).

(** An optional ExponentPart that ends the literal. *)
Definition parse_exponent (s : jsstring) : option Z :=
  match s with
  | [] => Some 0%Z
  | e :: r =>
      if (e =? 101) || (e =? 69) then
        let '(sign, r1) :=
          match r with
          | 43 :: r' => (1%Z, r')
          | 45 :: r' => ((-1)%Z, r')
          | _ => (1%Z, r)
          end in
        let (ds, r2) := span is_digit r1 in
        if negb (is_nil ds) && is_nil r2
        then Some (sign * digits_value 10 ds)%Z
        else None
      else None
  end.

(** StrUnsignedDecimalLiteral: [Infinity], or digits with an optional
    fraction and exponent, at least one digit before the exponent. *)
Definition parse_unsigned_decimal (s : jsstring) : option num :=
  if jsstring_eqb s (str "Infinity") then Some PInf
  else
    let (ip, r1) := span is_digit s in
    let '(fp, r2) :=
      match r1 with
      | 46 :: r => span is_digit r
      | _ => ([], r1)
      end in
    if is_nil ip && is_nil fp then None
    else
      match parse_exponent r2 with
      | Some e =>
          Some (round (inject_Z (digits_value 10 (ip ++ fp))
                       * pow10 (e - Z.of_nat (length fp))))
      | None => None
      end.

(** StrDecimalLiteral: an optional sign in front. *)
Definition parse_decimal (s : jsstring) : option num :=
  match s with
  | 43 :: r => parse_unsigned_decimal r
  | 45 :: r => option_map neg (parse_unsigned_decimal r)
  | _ => parse_unsigned_decimal s
  end.

(** NonDecimalIntegerLiteral: [0x], [0o] or [0b] and at least one digit. *)
Definition parse_non_decimal (s : jsstring) : option num :=
  match s with
  | 48 :: p :: ds =>
      let lit (base : Z) (ok : code_unit -> bool) :=
        if negb (is_nil ds) && forallb ok ds
        then Some (round (inject_Z (digits_value base ds))) else None in
      if (p =? 120) || (p =? 88) then lit 16%Z is_hex_digit
      else if (p =? 111) || (p =? 79) then lit 8%Z is_octal_digit
      else if (p =? 98) || (p =? 66) then lit 2%Z is_binary_digit
      else None
  | _ => None
  end.

(** [Number(s)]: white space around the literal is dropped, the empty
    literal is zero, what is not a literal is NaN, and the value of a
    literal is rounded to binary64. *)
Definition StringToNumber (s : jsstring) : num :=
  let t := trim s in
  if is_nil t then Fin 0
  else
    match parse_non_decimal t with
    | Some n => n
    | None =>
        match parse_decimal t with
        | Some n => n
        | None => NaN
        end
    end.

End StringNumericLiteral.

Import StringNumericLiteral.

(** ** The data model *)

(** [Point] of [types.ts].  A coordinate is declared a number and holds
    [undefined] when a fragment has fewer than two tokens. *)
Record Point : Type := mkPoint { x : value; y : value }.

(** The object literal returned by [getBounds]. *)
Record Bounds : Type := mkBounds {
  minX : num;
  minY : num;
  maxX : num;
  maxY : num;
  width : num;
  height : num
}.

(** [RiverData] of [types.ts]: a name, the points and their bounds. *)
Record RiverData : Type := mkRiverData {
  name : jsstring;
  points : list Point;
  bounds : Bounds
}.

(** [LabelResult] of [types.ts], with the fields of the object that
    [findOptimalLabelPosition] builds; the declared field [method] is in
    no object of the source. *)
Record LabelResult : Type := mkLabelResult {
  position : Point;
  rotation : num;
  actualFontSize : num;
  textWidth : num;
  textHeight : num;
  isInside : bool
}.

(** ** The functions of [App.tsx] *)

Definition parseWKTPolygon (wkt : jsstring) : list Point :=
  let cleaned := replace_ring_suffix (replace_polygon_prefix (trim wkt)) in
  map (fun pair =>
         let nums := map StringToNumber (split_spaces (trim pair)) in
         {| x := destructure 0 nums; y := destructure 1 nums |})
      (split comma cleaned).

Definition getBounds (points : list Point) : Bounds :=
  let xs := map x points in
  let ys := map y points in
  let minX := Math_min xs in
  let maxX := Math_max xs in
  let minY := Math_min ys in
  let maxY := Math_max ys in
  {| minX := minX;
     minY := minY;
     maxX := maxX;
     maxY := maxY;
     width := (maxX - minX)%num;
     height := (maxY - minY)%num |}.

Definition findOptimalLabelPosition
  (points : list Point) (_text : jsstring) (fontSize : num) : LabelResult :=
  let cx := (fold_left (fun s p => s + ToNumber (x p)) points zero
             / of_nat (length points))%num in
  let cy := (fold_left (fun s p => s + ToNumber (y p)) points zero
             / of_nat (length points))%num in
  {| position := {| x := Number cx; y := Number cy |};
     rotation := of_Z 0;
     actualFontSize := fontSize;
     textWidth := (fontSize * of_Z 6)%num;
     textHeight := fontSize;
     isInside := true |}.

(** ** The component state and [processWKT] *)

(** The [useState] cells of [App]. *)
Record AppState : Type := mkAppState {
  riverData : option RiverData;
  labelResult : option LabelResult;
  text : jsstring;
  wktInput : jsstring;
  fontSize : num;
  isProcessing : bool;
  error : option jsstring;
  showSafety : bool
}.

Definition initialState : AppState :=
  {| riverData := None;
     labelResult := None;
     text := str "COLORADO RIVER";
     wktInput := [];
     fontSize := of_Z 24;
     isProcessing := false;
     error := None;
     showSafety := false |}.

Definition setRiverData (v : option RiverData) (st : AppState) : AppState :=
  mkAppState v (labelResult st) (text st) (wktInput st) (fontSize st)
    (isProcessing st) (error st) (showSafety st).

Definition setLabelResult (v : option LabelResult) (st : AppState) : AppState :=
  mkAppState (riverData st) v (text st) (wktInput st) (fontSize st)
    (isProcessing st) (error st) (showSafety st).

Definition setIsProcessing (v : bool) (st : AppState) : AppState :=
  mkAppState (riverData st) (labelResult st) (text st) (wktInput st)
    (fontSize st) v (error st) (showSafety st).

Definition setError (v : option jsstring) (st : AppState) : AppState :=
  mkAppState (riverData st) (labelResult st) (text st) (wktInput st)
    (fontSize st) (isProcessing st) v (showSafety st).

(** What is thrown. *)
Inductive exception : Type :=
| RangeError.

(** The outcome of a block of statements: it ends, or it throws. *)
Inductive completion (A : Type) : Type :=
| Normal (a : A)
| Throw (e : exception).

Arguments Normal {A} a.
Arguments Throw {A} e.

Definition bind {A B : Type} (c : completion A) (k : A -> completion B)
  : completion B :=
  match c with
  | Normal a => k a
  | Throw e => Throw e
  end.

Notation "'let*' v ':=' c 'in' k" := (bind c (fun v => k))
  (at level 10, v name, c at level 100, k at level 200, only parsing).

(** [try { body } catch (err) { handler }] *)
Definition try_catch {A : Type} (body : completion A) (handler : A) : A :=
  match body with
  | Normal a => a
  | Throw _ => handler
  end.

Definition msg_zero_area : jsstring := str "Polygon has zero area or height.".
Definition msg_invalid_wkt : jsstring := str "WKT must be a valid POLYGON format.".
Definition msg_parse_failed : jsstring := str "Failed to parse WKT string.".
Definition default_sourceName : jsstring := str "Manual Entry".

(** A parameter with a default value: the argument when one is passed. *)
Definition default_argument (argument : option jsstring) (default : jsstring)
  : jsstring :=
  match argument with Some a => a | None => default end.

(** The call [getBounds(points)]: [Math.min(...xs)] and the three calls
    after it spread one argument for each point, and a call with more
    arguments than the engine accepts throws a RangeError. *)
Definition call_getBounds (max_arguments : nat) (points : list Point)
  : completion Bounds :=
  if (length points <=? max_arguments)%nat
  then Normal (getBounds points)
  else Throw RangeError.

(** The [try] block of the callback of [processWKT]. *)
Definition processWKT_try (max_arguments : nat) (wkt sourceName : jsstring)
  (st : AppState) : completion AppState :=
  let* points := Normal (parseWKTPolygon wkt) in
  if (3 <=? length points)%nat then
    let* bounds := call_getBounds max_arguments points in
    if (width bounds === of_Z 0)%num || (height bounds === of_Z 0)%num then
      Normal (setRiverData None (setError (Some msg_zero_area) st))
    else
      Normal (setRiverData
                (Some {| name := sourceName; points := points; bounds := bounds |})
                st)
  else
    Normal (setRiverData None (setError (Some msg_invalid_wkt) st)).

(** The statements of [processWKT] before the timer is set. *)
Definition processWKT_begin (st : AppState) : AppState :=
  setLabelResult None (setError None (setIsProcessing true st)).

(** The callback handed to [setTimeout], applied to the state that is
    current when the timer fires. *)
Definition processWKT_callback (max_arguments : nat)
  (wkt sourceName : jsstring) (st : AppState) : AppState :=
  setIsProcessing false
    (try_catch (processWKT_try max_arguments wkt sourceName st)
               (setRiverData None (setError (Some msg_parse_failed) st))).

(** [processWKT(wkt, sourceName)]: the state its statements leave, and the
    callback set to run 200 ms later; other handlers may run before it. *)
Definition processWKT (max_arguments : nat) (wkt : jsstring)
  (sourceName : option jsstring) (st : AppState)
  : AppState * (AppState -> AppState) :=
  let sourceName := default_argument sourceName default_sourceName in
  (processWKT_begin st, processWKT_callback max_arguments wkt sourceName).

(** The state after [processWKT] when its callback is the next thing to
    run: no handler and no effect in between. *)
Definition processWKT_undisturbed (max_arguments : nat) (wkt : jsstring)
  (sourceName : option jsstring) (st : AppState) : AppState :=
  snd (processWKT max_arguments wkt sourceName st)
      (fst (processWKT max_arguments wkt sourceName st)).

(** The effect on [riverData], [text] and [fontSize]. *)
Definition useEffect_label (st : AppState) : AppState :=
  match riverData st with
  | Some rd =>
      setLabelResult
        (Some (findOptimalLabelPosition (points rd) (text st) (fontSize st))) st
  | None => st
  end.

(** ** The viewport projection *)

Definition svgWidth : num := of_Z 800.
Definition svgHeight : num := of_Z 600.
Definition margin : num := of_Z 80.

Record Transform : Type := mkTransform {
  scale : num;
  offsetX : num;
  offsetY : num
}.

Definition transform (riverData : option RiverData) : Transform :=
  match riverData with
  | None => {| scale := of_Z 1; offsetX := of_Z 0; offsetY := of_Z 0 |}
  | Some rd =>
      let bounds := bounds rd in
      let scale :=
        Math_min [Number ((svgWidth - margin * of_Z 2) / width bounds)%num;
                  Number ((svgHeight - margin * of_Z 2) / height bounds)%num] in
      let offsetX :=
        ((svgWidth - width bounds * scale) / of_Z 2 - minX bounds * scale)%num in
      let offsetY :=
        ((svgHeight - height bounds * scale) / of_Z 2 - minY bounds * scale)%num in
      {| scale := scale; offsetX := offsetX; offsetY := offsetY |}
  end.

Definition toSVG (transform : Transform) (p : Point) : Point :=
  {| x := Number (ToNumber (x p) * scale transform + offsetX transform)%num;
     y := Number (svgHeight
                  - (ToNumber (y p) * scale transform + offsetY transform))%num |}.

(** ** Point sequences with real coordinates *)

Definition real_point (p : Q * Q) : Point :=
  {| x := Number (Fin (fst p)); y := Number (Fin (snd p)) |}.

Definition real_points (l : list (Q * Q)) : list Point := map real_point l.

(** The arithmetic mean of a sequence of rationals, as the words of the
    specification have it: the sum of all the elements over their count. *)
Definition arithmetic_mean (l : list Q) : Q :=
  fold_right Qplus 0 l / inject_Z (Z.of_nat (length l)).

(** The comma-separated fragments of an input, and the tokens of one. *)
Definition fragments (wkt : jsstring) : list jsstring :=
  split comma (replace_ring_suffix (replace_polygon_prefix (trim wkt))).

Definition tokens (fragment : jsstring) : list jsstring :=
  split_spaces (trim fragment).

(** The closed square ring of the specification's scenario. *)
Definition square_ring : jsstring :=
  str "POLYGON((0 0, 10 0, 10 10, 0 10, 0 0))".

(** The river of the square ring, as [processWKT] stores it. *)
Definition square_river : RiverData :=
  {| name := default_sourceName;
     points := parseWKTPolygon square_ring;
     bounds := getBounds (parseWKTPolygon square_ring) |}.

(** The two axes, to speak of one coordinate and of the other. *)
Inductive axis : Type := AxisX | AxisY.

Definition other (a : axis) : axis :=
  match a with AxisX => AxisY | AxisY => AxisX end.

(** The coordinate of a point along an axis, and the index of its token
    in a fragment. *)
Definition coordinate (a : axis) (p : Point) : value :=
  match a with AxisX => x p | AxisY => y p end.

Definition token_index (a : axis) : nat :=
  match a with AxisX => 0%nat | AxisY => 1%nat end.

(** The fields of the bounds along an axis. *)
Definition lower (a : axis) (b : Bounds) : num :=
  match a with AxisX => minX b | AxisY => minY b end.

Definition upper (a : axis) (b : Bounds) : num :=
  match a with AxisX => maxX b | AxisY => maxY b end.

Definition extent (a : axis) (b : Bounds) : num :=
  match a with AxisX => width b | AxisY => height b end.

(** All the points share one coordinate along the axis. *)
Definition collinear (a : axis) (l : list (Q * Q)) : Prop :=
  exists c : Q,
    Forall (fun q => (match a with AxisX => fst q | AxisY => snd q end) == c) l.

(** A ring with a malformed first token whose points share their y. *)
Definition malformed_flat_ring : jsstring := str "POLYGON((abc 0, 1 0, 2 0))".

(** A ring with a malformed first token and points of different y. *)
Definition malformed_ring : jsstring := str "POLYGON((abc 0, 1 1, 2 0))".

(** The river of that ring, as [processWKT] stores it. *)
Definition malformed_river : RiverData :=
  {| name := default_sourceName;
     points := parseWKTPolygon malformed_ring;
     bounds := getBounds (parseWKTPolygon malformed_ring) |}.

(** ** Well-formed inputs *)

(** A token: not empty, no white space and no comma in it. *)
Definition is_token (t : jsstring) : bool :=
  negb (is_nil t)
  && forallb (fun c => negb (is_space c) && negb (c =? comma)%N) t.

Definition all_spaces (w : jsstring) : bool := forallb is_space w.

(** [POLYGON] in any mix of capitals and small letters. *)
Definition is_keyword (k : jsstring) : bool :=
  jsstring_eqb (map canonicalize k) (str "POLYGON").

(** [l.join(sep)] *)
Fixpoint join (sep : jsstring) (l : list jsstring) : jsstring :=
  match l with
  | [] => []
  | a :: r =>
      match r with
      | [] => a
      | _ :: _ => a ++ sep ++ join sep r
      end
  end.

(** The text [x y] of a coordinate pair, and the text
    [POLYGON((x1 y1, x2 y2, ..., xn yn))] of a ring of pairs. *)
Definition pair_text (p : jsstring * jsstring) : jsstring :=
  fst p ++ str " " ++ snd p.

Definition polygon_text (keyword : jsstring)
  (pairs : list (jsstring * jsstring)) : jsstring :=
  keyword ++ str "((" ++ join (str ", ") (map pair_text pairs) ++ str "))".

(** A coordinate pair with the white space around its two tokens. *)
Record spaced_pair : Type := mkSpacedPair {
  before : jsstring;
  first_token : jsstring;
  between : jsstring;
  second_token : jsstring;
  after : jsstring
}.

Definition spaced_pair_text (f : spaced_pair) : jsstring :=
  before f ++ first_token f ++ between f ++ second_token f ++ after f.

Definition spaced_pair_ok (f : spaced_pair) : bool :=
  all_spaces (before f) && is_token (first_token f)
  && (negb (is_nil (between f)) && all_spaces (between f))
  && is_token (second_token f) && all_spaces (after f).

(** The point that [Number] makes of two tokens. *)
Definition point_of_tokens (a b : jsstring) : Point :=
  {| x := Number (StringToNumber a); y := Number (StringToNumber b) |}.

(** The sample of [loadSample]. *)
Definition sampleWKT : jsstring :=
  str "POLYGON((100 100, 250 80, 400 120, 550 90, 700 130, 750 110, 780 160, 700 180, 550 140, 400 170, 250 130, 100 150, 80 120, 100 100))".

(** Put the piece [f] in front of the first fragment. *)
Definition cons_head_app (f : jsstring) (l : list jsstring) : list jsstring :=
  match l with
  | t :: ts => (f ++ t) :: ts
  | [] => [f]
  end.

(** Whether the first, and the last, code unit is there and is not white
    space. *)
Definition head_not_space (s : jsstring) : bool :=
  match s with
  | c :: _ => negb (is_space c)
  | [] => false
  end.

Definition last_not_space (s : jsstring) : bool := head_not_space (rev s).

(** The pairs of a ring written as in [polygon_text]: one space between
    the two tokens and one after each comma. *)
Definition plain_pairs (pairs : list (jsstring * jsstring)) : list spaced_pair :=
  match pairs with
  | [] => []
  | p :: ps =>
      mkSpacedPair [] (fst p) (str " ") (snd p) []
      :: map (fun q => mkSpacedPair (str " ") (fst q) (str " ") (snd q) []) ps
  end.

(** ** The handlers and the rendering of [App] *)

Definition setWktInput (v : jsstring) (st : AppState) : AppState :=
  mkAppState (riverData st) (labelResult st) (text st) v (fontSize st)
    (isProcessing st) (error st) (showSafety st).

Definition msg_paste : jsstring := str "Please paste WKT or upload a file.".
Definition sample_sourceName : jsstring := str "Sample_River.wkt".

(** [loadSample]: the sample goes to the text area and is processed. *)
Definition loadSample (max_arguments : nat) (st : AppState)
  : AppState * (AppState -> AppState) :=
  processWKT max_arguments sampleWKT (Some sample_sourceName)
    (setWktInput sampleWKT st).

(** [handleRunClick]: a string is truthy when it is not empty.  The state
    left, and the callback set if [processWKT] was called. *)
Definition handleRunClick (max_arguments : nat) (st : AppState)
  : AppState * option (AppState -> AppState) :=
  if negb (is_nil (trim (wktInput st)))
  then (fst (processWKT max_arguments (wktInput st) None st),
        Some (snd (processWKT max_arguments (wktInput st) None st)))
  else (setError (Some msg_paste) st, None).

(** [labelSVGPos], with the transform of the current river. *)
Definition labelSVGPos (st : AppState) : Point :=
  match labelResult st with
  | Some r => toSVG (transform (riverData st)) (position r)
  | None => {| x := Number (of_Z 0); y := Number (of_Z 0) |}
  end.

(** ** Notions used to state further properties *)

(** Two numbers that are the same up to the writing of a rational. *)
Definition same_num (a b : num) : Prop :=
  match a, b with
  | Fin p, Fin q => p == q
  | NaN, NaN | PInf, PInf | NInf, NInf => True
  | _, _ => False
  end.

Definition same_bounds (b b' : Bounds) : Prop :=
  same_num (minX b) (minX b') /\ same_num (minY b) (minY b') /\
  same_num (maxX b) (maxX b') /\ same_num (maxY b) (maxY b') /\
  same_num (width b) (width b') /\ same_num (height b) (height b').

(** The coordinate of a pair of rationals along an axis. *)
Definition along (a : axis) (q : Q * Q) : Q :=
  match a with AxisX => fst q | AxisY => snd q end.

(** The fields of the state that [processWKT] does not write. *)
Definition same_inputs (st st' : AppState) : Prop :=
  text st = text st' /\ wktInput st = wktInput st' /\
  fontSize st = fontSize st' /\ showSafety st = showSafety st'.

(** The code units that occur in some numeric literal: the digits of the
    four bases, the signs, the dot, the letters of the radix prefixes and
    of the exponent, and the letters of [Infinity]. *)
Definition numeric_char (c : code_unit) : bool :=
  is_hex_digit c
  || existsb (N.eqb c)
       [43; 45; 46; 120; 88; 111; 79; 98; 66; 73; 110; 105; 116; 121]%N.

(** Whether the first, and the last, code unit is there and satisfies a
    test. *)
Definition head_sat (f : code_unit -> bool) (s : jsstring) : bool :=
  match s with
  | c :: _ => f c
  | [] => false
  end.

Definition last_sat (f : code_unit -> bool) (s : jsstring) : bool :=
  head_sat f (rev s).

(** Neither [P] nor [p]; not a closing parenthesis. *)
Definition not_letter_p (c : code_unit) : bool := negb (canonicalize c =? 80)%N.
Definition not_rparen (c : code_unit) : bool := negb (c =? rparen)%N.

(** The text [x1 y1, x2 y2, ..., xn yn] of a ring of pairs, bare. *)
Definition ring_text (pairs : list (jsstring * jsstring)) : jsstring :=
  join (str ", ") (map pair_text pairs).

(** The two tokens of a spaced pair. *)
Definition pair_of_spaced (g : spaced_pair) : jsstring * jsstring :=
  (first_token g, second_token g).

(** ** Exact results *)

(** The number [n] is the double of value [q]. *)
Definition holds (n : num) (q : Q) : Prop :=
  exists r : Q, n = Fin r /\ r == q.

(** Whether [q] is the value of a double: rounding leaves it as it is. *)
Definition exactb (q : Q) : bool :=
  match round q with
  | Fin r => Qeq_bool r q
  | _ => false
  end.

(** Whether the sums [a + u1], [a + u1 + u2], ... from the left are all
    values of doubles: no addition of the [reduce] rounds. *)
Fixpoint exact_sumsb (a : Q) (l : list Q) : bool :=
  match l with
  | [] => true
  | u :: r => exactb (a + u) && exact_sumsb (a + u) r
  end.

(** Whether neither the sums nor the division of the mean round. *)
Definition exact_meanb (l : list Q) : bool :=
  exact_sumsb 0 l && exactb (arithmetic_mean l).




(** A multiple of [2 ^ -1074], as the value of every finite double is. *)
Definition on_grid (q : Q) : Prop :=
  exists k : Z, q == inject_Z k * 2 ^ (-1074).

(** The integer [m] is nearest to [x], and even if [x] is half way
    between two integers. *)
Definition nearest (m : Z) (x : Q) : Prop :=
  (inject_Z m - (1 # 2) <= x /\ x <= inject_Z m + (1 # 2)) /\
  (x == inject_Z m + (1 # 2) -> Z.even m = true) /\
  (x == inject_Z m - (1 # 2) -> Z.even m = true).

(** [a <= b] on numbers, which no NaN satisfies. *)
Definition num_le (a b : num) : Prop :=
  match a, b with
  | NaN, _ | _, NaN => False
  | NInf, _ | _, PInf => True
  | Fin p, Fin q => p <= q
  | _, _ => False
  end.

(** A number whose value, when finite, is on that grid. *)
Definition grid_num (n : num) : Prop :=
  match n with
  | Fin r => on_grid r
  | _ => True
  end.

(** A number whose value, when finite, is the value of a double. *)
Definition double_num (n : num) : Prop :=
  match n with
  | Fin r => exactb r = true
  | _ => True
  end.

(** Whether every coordinate of the sequence is the value of a double. *)
Definition doubles (l : list (Q * Q)) : bool :=
  forallb (fun q => exactb (fst q) && exactb (snd q)) l.

(** ** Inputs of the examples *)

(** A ring whose sums round. *)
Definition ring_rounding : jsstring :=
  str "POLYGON((0.1 0, 0.09999999999999999 1, 0.1 2))".

(** A ring with a difference of coordinates that binary64 does not hold. *)
Definition ring_wide : jsstring := str "POLYGON((1e16 0, -1 1, 0 2))".




(** The double that a literal of the source language stands for. *)
Definition literal (s : string) : num := StringToNumber (str s).

(** A bound on the number of arguments of a call, for the examples. *)
Definition sample_max_arguments : nat := N.to_nat 125000.


(** * Properties *)

(** ** Arithmetic of the number model *)

Section NumFacts.

Local Open Scope Q_scope.

Lemma Qlt_b_true (a b : Q) : Qlt_b a b = true <-> a < b.
Proof.
  unfold Qlt_b. rewrite negb_true_iff.
  split; intro H.
  - apply Qnot_le_lt. intro L. apply Qle_bool_iff in L. congruence.
  - destruct (Qle_bool b a) eqn:E; [|reflexivity].
    apply Qle_bool_iff in E. exfalso. apply (Qlt_not_le _ _ H E).
Qed.

Lemma Qlt_b_false (a b : Q) : Qlt_b a b = false <-> b <= a.
Proof.
  unfold Qlt_b. rewrite negb_false_iff. apply Qle_bool_iff.
Qed.

Lemma Qis_zero_false (q : Q) : ~ q == 0 -> Qis_zero q = false.
Proof.
  intro H. unfold Qis_zero. destruct (Qeq_bool q 0) eqn:E; [|reflexivity].
  apply Qeq_bool_iff in E. contradiction.
Qed.

Lemma div_Fin (p q : Q) : ~ q == 0 -> (Fin p / Fin q)%num = round (p / q).
Proof. intro H. unfold div. now rewrite Qis_zero_false. Qed.

Lemma sub_Fin (p q : Q) : (Fin p - Fin q)%num = round (p - q).
Proof. reflexivity. Qed.

Lemma min_step_Fin (a b : Q) :
  min_step (Fin a) (Fin b) = Fin (if Qlt_b b a then b else a).
Proof. unfold min_step, ltb. now destruct (Qlt_b b a). Qed.

Lemma max_step_Fin (a b : Q) :
  max_step (Fin a) (Fin b) = Fin (if Qlt_b a b then b else a).
Proof. unfold max_step, ltb. now destruct (Qlt_b a b). Qed.

(** The running minimum of rationals is an element below all of them. *)
Lemma fold_min_Fin (l : list Q) : forall a : Q,
  exists m : Q,
    fold_left min_step (map Fin l) (Fin a) = Fin m /\
    In m (a :: l) /\ Forall (fun q => m <= q) (a :: l).
Proof.
  induction l as [|b l IH]; intro a.
  - exists a. repeat split; [now left | constructor; [apply Qle_refl | constructor]].
  - cbn [map fold_left]. rewrite min_step_Fin.
    destruct (IH (if Qlt_b b a then b else a)) as (m & E & I & F).
    exists m. split; [exact E|].
    inversion F as [|? ? Hm Fl]; subst.
    destruct (Qlt_b b a) eqn:C.
    + apply Qlt_b_true in C. split.
      * destruct I as [I|I]; [right; left; exact I | right; right; exact I].
      * constructor; [apply Qle_trans with b; [exact Hm | now apply Qlt_le_weak]|].
        constructor; assumption.
    + apply Qlt_b_false in C. split.
      * destruct I as [I|I]; [left; exact I | right; right; exact I].
      * constructor; [exact Hm|].
        constructor; [apply Qle_trans with a; assumption | assumption].
Qed.

Lemma fold_max_Fin (l : list Q) : forall a : Q,
  exists m : Q,
    fold_left max_step (map Fin l) (Fin a) = Fin m /\
    In m (a :: l) /\ Forall (fun q => q <= m) (a :: l).
Proof.
  induction l as [|b l IH]; intro a.
  - exists a. repeat split; [now left | constructor; [apply Qle_refl | constructor]].
  - cbn [map fold_left]. rewrite max_step_Fin.
    destruct (IH (if Qlt_b a b then b else a)) as (m & E & I & F).
    exists m. split; [exact E|].
    inversion F as [|? ? Hm Fl]; subst.
    destruct (Qlt_b a b) eqn:C.
    + apply Qlt_b_true in C. split.
      * destruct I as [I|I]; [right; left; exact I | right; right; exact I].
      * constructor; [apply Qle_trans with b; [now apply Qlt_le_weak | exact Hm]|].
        constructor; assumption.
    + apply Qlt_b_false in C. split.
      * destruct I as [I|I]; [left; exact I | right; right; exact I].
      * constructor; [exact Hm|].
        constructor; [apply Qle_trans with a; assumption | assumption].
Qed.

(** [Math.min] and [Math.max] of a non-empty sequence of rationals. *)
Lemma Math_min_Fin (a : Q) (l : list Q) :
  exists m : Q,
    Math_min (map Number (map Fin (a :: l))) = Fin m /\
    In m (a :: l) /\ Forall (fun q => m <= q) (a :: l).
Proof.
  unfold Math_min. rewrite map_map. cbn [map ToNumber fold_left].
  rewrite map_id. change (min_step PInf (Fin a)) with (Fin a).
  apply fold_min_Fin.
Qed.

Lemma Math_max_Fin (a : Q) (l : list Q) :
  exists m : Q,
    Math_max (map Number (map Fin (a :: l))) = Fin m /\
    In m (a :: l) /\ Forall (fun q => q <= m) (a :: l).
Proof.
  unfold Math_max. rewrite map_map. cbn [map ToNumber fold_left].
  rewrite map_id. change (max_step NInf (Fin a)) with (Fin a).
  apply fold_max_Fin.
Qed.
End NumFacts.

(** ** Rounding to binary64 *)

Section RoundFacts.

Local Open Scope Q_scope.

(** The double of a rational does not depend on how the rational is
    written. *)
Lemma round_Qeq (p q : Q) : p == q -> round p = round q.
Proof. intro H. unfold round. now rewrite (Qred_complete p q H). Qed.

Lemma round_zero (q : Q) : q == 0 -> round q = Fin 0.
Proof. intro H. rewrite (round_Qeq H). reflexivity. Qed.

Lemma neg_involutive (a : num) : neg (neg a) = a.
Proof.
  destruct a as [[n d]| | |]; try reflexivity.
  unfold neg, Qopp. cbn [Qnum Qden]. now rewrite Z.opp_involutive.
Qed.

(** Rounding commutes with the change of sign. *)
Lemma round_opp (q : Q) : round (- q) = neg (round q).
Proof.
  unfold round. rewrite Qred_opp.
  destruct (Qred q) as [[|n|n] d]; cbn [Qopp Qnum Qden Z.opp].
  - reflexivity.
  - reflexivity.
  - symmetry. apply neg_involutive.
Qed.

Lemma round_half_even_floor (a b : Z) : (a / b <= round_half_even a b)%Z.
Proof.
  unfold round_half_even.
  destruct (2 * (a mod b) ?= b)%Z; [destruct (Z.even (a / b))|..]; lia.
Qed.

Lemma round_half_even_nonneg (a b : Z) :
  (0 <= a)%Z -> (0 < b)%Z -> (0 <= round_half_even a b)%Z.
Proof.
  intros Ha Hb. pose proof (round_half_even_floor a b).
  pose proof (Z.div_pos a b Ha Hb). lia.
Qed.

Lemma round_half_even_pos (a b : Z) :
  (0 < b <= a)%Z -> (1 <= round_half_even a b)%Z.
Proof.
  intros [Hb Ha]. pose proof (round_half_even_floor a b).
  assert (1 <= a / b)%Z by (apply Z.div_le_lower_bound; lia). lia.
Qed.

Lemma two_power_pos (k : Z) : 0 < 2 ^ k.
Proof. apply Qpower_0_lt. reflexivity. Qed.

Lemma two_power_inject (k : Z) : (0 <= k)%Z -> inject_Z (2 ^ k) == 2 ^ k.
Proof. intro H. now rewrite Zpower_Qpower. Qed.

Lemma scaled_mantissa_nonneg (n d : positive) (ex : Z) :
  (0 <= scaled_mantissa n d ex)%Z.
Proof.
  unfold scaled_mantissa. destruct (Z.leb_spec 0 ex) as [H|H].
  - apply round_half_even_nonneg; [lia|].
    apply Z.mul_pos_pos; [lia | apply Z.pow_pos_nonneg; lia].
  - apply round_half_even_nonneg; [|lia].
    apply Z.mul_nonneg_nonneg; [lia | apply Z.pow_nonneg; lia].
Qed.

(** The exponent found is not above the binary logarithm. *)
Lemma floor_log2_le (n d : positive) : 2 ^ floor_log2 n d <= Zpos n # d.
Proof.
  unfold floor_log2.
  set (a := Z.log2 (Zpos n)). set (b := Z.log2 (Zpos d)).
  destruct (Qle_bool (2 ^ (a - b)) (Zpos n # d)) eqn:E.
  - now apply Qle_bool_iff.
  - destruct (Z.log2_spec (Zpos n) eq_refl) as [Hn _].
    destruct (Z.log2_spec (Zpos d) eq_refl) as [_ Hd].
    pose proof (Z.log2_nonneg (Zpos n)) as Na.
    pose proof (Z.log2_nonneg (Zpos d)) as Nb.
    fold a in Hn, Na. fold b in Hd, Nb.
    replace (a - b - 1)%Z with (a - Z.succ b)%Z by lia.
    rewrite Qpower_minus by (intro Z; discriminate Z).
    rewrite (Qmake_Qdiv (Zpos n) d).
    rewrite <- (two_power_inject Na), <- (@two_power_inject (Z.succ b)) by lia.
    rewrite Zle_Qle in Hn. rewrite Zlt_Qlt in Hd.
    set (A := inject_Z (2 ^ a)) in *. set (B := inject_Z (2 ^ Z.succ b)) in *.
    set (N := inject_Z (Zpos n)) in *. set (D := inject_Z (Zpos d)) in *.
    assert (PD : 0 < D) by reflexivity.
    assert (PB : 0 < B) by (apply Qlt_trans with D; assumption).
    assert (PA : 0 <= A).
    { change (inject_Z 0 <= inject_Z (2 ^ a)).
      rewrite <- Zle_Qle. apply Z.pow_nonneg. lia. }
    apply Qle_shift_div_l; [exact PD|].
    apply Qle_trans with A; [|exact Hn].
    assert (R : 0 <= D / B <= 1).
    { split.
      - apply Qle_shift_div_l; [exact PB|]. rewrite Qmult_0_l. now apply Qlt_le_weak.
      - apply Qle_shift_div_r; [exact PB|]. rewrite Qmult_1_l. now apply Qlt_le_weak. }
    assert (M : A * (D / B) <= A * 1).
    { apply Qmult_le_compat_nonneg; [split; [exact PA | apply Qle_refl] | exact R]. }
    rewrite Qmult_1_r in M.
    apply Qle_trans with (A * (D / B)); [|exact M].
    apply Qle_lteq. right. field. intro Z. rewrite Z in PB. discriminate PB.
Qed.

Lemma Qle_make (q : Q) (n d : positive) :
  q <= Zpos n # d -> q * inject_Z (Zpos d) <= inject_Z (Zpos n).
Proof.
  intro H. rewrite Qmake_Qdiv in H.
  assert (PD : 0 < inject_Z (Zpos d)) by reflexivity.
  apply (Qmult_le_compat_r _ _ (inject_Z (Zpos d))) in H;
    [|now apply Qlt_le_weak].
  apply Qle_trans with (1 := H). apply Qle_lteq. right. field.
  intro Z. rewrite Z in PD. discriminate PD.
Qed.

(** From the unit in the last place on, the significand is not zero. *)
Lemma scaled_mantissa_pos (n d : positive) (ex : Z) :
  2 ^ ex <= Zpos n # d -> (1 <= scaled_mantissa n d ex)%Z.
Proof.
  intro H. apply Qle_make in H.
  unfold scaled_mantissa. destruct (Z.leb_spec 0 ex) as [P|P].
  - apply round_half_even_pos. split.
    + apply Z.mul_pos_pos; [lia | apply Z.pow_pos_nonneg; lia].
    + rewrite Zle_Qle, inject_Z_mult, (two_power_inject P).
      now rewrite Qmult_comm.
  - apply round_half_even_pos. split; [lia|].
    rewrite Zle_Qle, inject_Z_mult, two_power_inject by lia.
    set (u := 2 ^ (- ex)).
    assert (U : 0 < u) by apply two_power_pos.
    assert (E : 2 ^ ex == / u).
    { unfold u. rewrite Qpower_opp, Qinv_involutive. reflexivity. }
    rewrite E in H.
    apply (Qmult_le_compat_r _ _ u) in H; [|now apply Qlt_le_weak].
    apply Qle_trans with (2 := H). apply Qle_lteq. right. field.
    intro Z. rewrite Z in U. discriminate U.
Qed.

Lemma max_exponent_le (n d : positive) :
  2 ^ (-1074) <= Zpos n # d ->
  2 ^ Z.max (floor_log2 n d - 52) (-1074) <= Zpos n # d.
Proof.
  intro H.
  destruct (Z.max_spec (floor_log2 n d - 52) (-1074)) as [[_ E]|[_ E]];
    rewrite E; [exact H|].
  apply Qle_trans with (2 ^ floor_log2 n d); [|apply floor_log2_le].
  apply Qpower_le_compat_l; [lia | discriminate].
Qed.

(** What is no less than the least positive double does not round to
    zero. *)
Lemma round_pos_positive (n d : positive) :
  2 ^ (-1074) <= Zpos n # d ->
  round_pos n d = PInf \/ exists r : Q, round_pos n d = Fin r /\ 0 < r.
Proof.
  intro H. apply max_exponent_le, scaled_mantissa_pos in H.
  unfold round_pos.
  set (ex := Z.max (floor_log2 n d - 52) (-1074)) in *.
  set (m := scaled_mantissa n d ex) in *.
  destruct (Qle_bool (2 ^ 1024) (Qred (inject_Z m * 2 ^ ex)));
    [left; reflexivity | right].
  exists (Qred (inject_Z m * 2 ^ ex)). split; [reflexivity|].
  rewrite Qred_correct.
  apply Qmult_lt_0_compat; [|apply two_power_pos].
  change (inject_Z 0 < inject_Z m). rewrite <- Zlt_Qlt. lia.
Qed.

Lemma on_grid_zero : on_grid 0.
Proof. exists 0%Z. now rewrite Qmult_0_l. Qed.

Lemma on_grid_Qeq (p q : Q) : p == q -> on_grid p -> on_grid q.
Proof. intros E [k H]. exists k. now rewrite <- E. Qed.

Lemma on_grid_opp (q : Q) : on_grid q -> on_grid (- q).
Proof.
  intros [k H]. exists (- k)%Z. rewrite H, inject_Z_opp. ring.
Qed.

Lemma grid_num_neg (a : num) : grid_num a -> grid_num (neg a).
Proof. destruct a; cbn [grid_num neg]; auto using on_grid_opp. Qed.

(** A finite result of the rounding is a multiple of [2 ^ -1074]. *)
Lemma round_pos_grid (n d : positive) : grid_num (round_pos n d).
Proof.
  unfold round_pos.
  set (ex := Z.max (floor_log2 n d - 52) (-1074)).
  set (m := scaled_mantissa n d ex).
  destruct (Qle_bool (2 ^ 1024) (Qred (inject_Z m * 2 ^ ex))); [exact I|].
  cbn [grid_num].
  assert (L : (0 <= ex + 1074)%Z) by (unfold ex; lia).
  exists (m * 2 ^ (ex + 1074))%Z.
  rewrite Qred_correct, inject_Z_mult, (two_power_inject L).
  rewrite <- Qmult_assoc, <- Qpower_plus by discriminate.
  now replace (ex + 1074 + -1074)%Z with ex by lia.
Qed.

Lemma round_grid (q : Q) : grid_num (round q).
Proof.
  unfold round. destruct (Qred q) as [[|n|n] d].
  - exact on_grid_zero.
  - apply round_pos_grid.
  - apply grid_num_neg, round_pos_grid.
Qed.

Lemma round_not_NaN (q : Q) : round q <> NaN.
Proof.
  unfold round, round_pos.
  destruct (Qred q) as [[|n|n] d]; [discriminate| |];
    destruct (Qle_bool _ _); discriminate.
Qed.

Lemma round_apart (q : Q) :
  2 ^ (-1074) <= q ->
  round q = PInf \/ exists r : Q, round q = Fin r /\ 0 < r.
Proof.
  intro H. rewrite <- (Qred_correct q) in H. unfold round.
  pose proof (two_power_pos (-1074)) as U.
  destruct (Qred q) as [[|n|n] d].
  - exfalso. apply (Qlt_not_le _ _ U). apply Qle_trans with (1 := H).
    apply Qle_lteq. right. reflexivity.
  - now apply round_pos_positive.
  - exfalso. apply (Qlt_not_le _ _ U). apply Qle_trans with (1 := H).
    apply Qlt_le_weak. reflexivity.
Qed.

Lemma grid_gap (ka kb : Z) (u : Q) :
  0 < u -> (ka < kb)%Z -> u <= inject_Z kb * u - inject_Z ka * u.
Proof.
  intros U L.
  assert (M : 1 <= inject_Z kb - inject_Z ka).
  { unfold Qminus. rewrite <- inject_Z_opp, <- inject_Z_plus.
    change (inject_Z 1 <= inject_Z (kb + - ka)). rewrite <- Zle_Qle. lia. }
  apply (Qmult_le_compat_r _ _ u) in M; [|now apply Qlt_le_weak].
  rewrite Qmult_1_l in M. apply Qle_trans with (1 := M).
  apply Qle_lteq. right. ring.
Qed.

(** The difference of two doubles is zero, as the machine computes it,
    exactly when they are equal. *)
Lemma sub_zero_iff (a b : Q) :
  on_grid a -> on_grid b ->
  ((Fin a - Fin b === of_Z 0)%num = true <-> a == b).
Proof.
  intros [ka Ha] [kb Hb]. rewrite sub_Fin. split.
  - intro S.
    set (u := 2 ^ (-1074)) in *.
    assert (U : 0 < u) by apply two_power_pos.
    destruct (Z.lt_trichotomy ka kb) as [L|[E|L]].
    + exfalso.
      assert (A : u <= b - a).
      { rewrite Ha, Hb. now apply grid_gap. }
      assert (R : round (a - b) = neg (round (b - a))).
      { rewrite <- round_opp. apply round_Qeq. ring. }
      rewrite R in S.
      destruct (round_apart A) as [P|(r & P & Hr)]; rewrite P in S;
        [discriminate S|].
      cbn [neg strict_eq of_Z] in S. apply Qeq_bool_iff in S.
      change (inject_Z 0) with 0 in S. lra.
    + rewrite Ha, Hb, E. reflexivity.
    + exfalso.
      assert (A : u <= a - b).
      { rewrite Ha, Hb. now apply grid_gap. }
      destruct (round_apart A) as [P|(r & P & Hr)]; rewrite P in S;
        [discriminate S|].
      cbn [strict_eq of_Z] in S. apply Qeq_bool_iff in S.
      change (inject_Z 0) with 0 in S. lra.
  - intro E. rewrite round_zero by (rewrite E; ring). reflexivity.
Qed.

Lemma round_pos_nonneg (n d : positive) :
  round_pos n d = PInf \/ exists r : Q, round_pos n d = Fin r /\ 0 <= r.
Proof.
  unfold round_pos.
  set (ex := Z.max (floor_log2 n d - 52) (-1074)).
  pose proof (scaled_mantissa_nonneg n d ex) as M.
  set (m := scaled_mantissa n d ex) in *.
  destruct (Qle_bool (2 ^ 1024) (Qred (inject_Z m * 2 ^ ex)));
    [left; reflexivity | right].
  exists (Qred (inject_Z m * 2 ^ ex)). split; [reflexivity|].
  rewrite Qred_correct.
  apply Qmult_le_0_compat; [|apply Qlt_le_weak, two_power_pos].
  change (inject_Z 0 <= inject_Z m). now rewrite <- Zle_Qle.
Qed.

(** The double of what is not negative is not negative. *)
Lemma round_nonneg (q : Q) :
  0 <= q -> round q = PInf \/ exists r : Q, round q = Fin r /\ 0 <= r.
Proof.
  intro H. rewrite <- (Qred_correct q) in H. unfold round.
  destruct (Qred q) as [[|n|n] d].
  - right. exists 0. split; [reflexivity | apply Qle_refl].
  - apply round_pos_nonneg.
  - exfalso. apply (Qlt_not_le _ _ (eq_refl : Zneg n # d < 0) H).
Qed.

(** *** Operations that do not round *)

Lemma exactb_round (q : Q) : exactb q = true -> holds (round q) q.
Proof.
  unfold exactb, holds. destruct (round q) as [r| | |]; try discriminate.
  intro H. apply Qeq_bool_iff in H. now exists r.
Qed.

Lemma exactb_grid (q : Q) : exactb q = true -> on_grid q.
Proof.
  intro H. pose proof (round_grid q) as G.
  destruct (@exactb_round q H) as (r & E & Q). rewrite E in G.
  exact (on_grid_Qeq Q G).
Qed.

Lemma holds_Fin (q : Q) : holds (Fin q) q.
Proof. exists q. split; [reflexivity | apply Qeq_refl]. Qed.

Lemma holds_Qeq (n : num) (p q : Q) : p == q -> holds n p -> holds n q.
Proof. intros E (r & H & Q). exists r. split; [exact H | now rewrite Q]. Qed.

Lemma holds_add (a b : num) (p q : Q) :
  holds a p -> holds b q -> exactb (p + q) = true -> holds (a + b)%num (p + q).
Proof.
  intros (r & -> & Hr) (s & -> & Hs) E.
  cbn [add]. rewrite (@round_Qeq (r + s) (p + q)) by now rewrite Hr, Hs.
  now apply exactb_round.
Qed.



Lemma holds_div (a b : num) (p q : Q) :
  holds a p -> holds b q -> ~ q == 0 -> exactb (p / q) = true ->
  holds (a / b)%num (p / q).
Proof.
  intros (r & -> & Hr) (s & -> & Hs) N E.
  rewrite div_Fin by now rewrite Hs.
  rewrite (@round_Qeq (r / s) (p / q)) by now rewrite Hr, Hs.
  now apply exactb_round.
Qed.

End RoundFacts.

(** ** Rounding is to the nearest and keeps the order *)

Section NearestFacts.

Local Open Scope Q_scope.

Lemma round_half_even_spec (a b : Z) :
  (0 < b)%Z ->
  ((2 * round_half_even a b - 1) * b <= 2 * a
   /\ 2 * a <= (2 * round_half_even a b + 1) * b)%Z /\
  ((2 * a = (2 * round_half_even a b + 1) * b)%Z ->
   Z.even (round_half_even a b) = true) /\
  ((2 * a = (2 * round_half_even a b - 1) * b)%Z ->
   Z.even (round_half_even a b) = true).
Proof.
  intro Hb. unfold round_half_even.
  pose proof (Z.div_mod a b ltac:(lia)) as D.
  pose proof (Z.mod_pos_bound a b Hb) as R.
  set (f := (a / b)%Z) in *. set (r := (a mod b)%Z) in *.
  destruct (Z.compare_spec (2 * r) b) as [E|L|G].
  - destruct (Z.even f) eqn:P.
    + split; [lia|]. split; [intros _; exact P | intro T; exfalso; lia].
    + split; [lia|]. split; [intro T; exfalso; lia|].
      intros _. rewrite Z.even_add, P. reflexivity.
  - split; [lia|]. split; intro T; exfalso; lia.
  - split; [lia|]. split; intro T; exfalso; lia.
Qed.

Lemma nearest_Qeq (m : Z) (x y : Q) : x == y -> nearest m x -> nearest m y.
Proof.
  intros E ((L & U) & T1 & T2). unfold nearest. rewrite <- E. tauto.
Qed.

Ltac push_inject :=
  unfold Z.sub;
  repeat (rewrite inject_Z_mult || rewrite inject_Z_plus || rewrite inject_Z_opp).

Lemma round_half_even_nearest (a b : Z) :
  (0 < b)%Z -> nearest (round_half_even a b) (inject_Z a / inject_Z b).
Proof.
  intro Hb.
  destruct (round_half_even_spec a Hb) as ((L & U) & T1 & T2).
  set (m := round_half_even a b) in *.
  assert (PB : 0 < inject_Z b)
    by (change (inject_Z 0 < inject_Z b); now rewrite <- Zlt_Qlt).
  assert (NB : ~ inject_Z b == 0) by lra.
  assert (X : inject_Z a / inject_Z b * inject_Z b == inject_Z a)
    by (field; exact NB).
  assert (L' : (inject_Z m - (1 # 2)) * inject_Z b
               <= inject_Z a / inject_Z b * inject_Z b).
  { rewrite X. rewrite Zle_Qle in L. revert L. push_inject.
    change (inject_Z 2) with 2. change (inject_Z 1) with 1. intro L. lra. }
  assert (U' : inject_Z a / inject_Z b * inject_Z b
               <= (inject_Z m + (1 # 2)) * inject_Z b).
  { rewrite X. rewrite Zle_Qle in U. revert U. push_inject.
    change (inject_Z 2) with 2. change (inject_Z 1) with 1. intro U. lra. }
  apply Qmult_le_r in L'; [|exact PB]. apply Qmult_le_r in U'; [|exact PB].
  split; [split; assumption|].
  split; intro T; [apply T1 | apply T2];
    apply (Qmult_inj_r _ _ (inject_Z b) NB) in T; rewrite X in T;
    apply inject_Z_injective; push_inject;
    change (inject_Z 2) with 2; change (inject_Z 1) with 1;
    rewrite T; ring.
Qed.

Lemma inject_Z_succ_le (m k : Z) : (m < k)%Z -> inject_Z m + 1 <= inject_Z k.
Proof.
  intro H. change 1 with (inject_Z 1). rewrite <- inject_Z_plus, <- Zle_Qle.
  lia.
Qed.

(** The nearest integer grows with what is rounded. *)
Lemma nearest_mono (m m' : Z) (x x' : Q) :
  nearest m x -> nearest m' x' -> x <= x' -> (m <= m')%Z.
Proof.
  intros ((L & U) & T1 & T2) ((L' & U') & T1' & T2') H.
  destruct (Z.le_gt_cases m m') as [C|C]; [exact C | exfalso].
  pose proof (inject_Z_succ_le C) as S.
  assert (E : inject_Z m == inject_Z m' + 1) by lra.
  assert (Em : m = (m' + 1)%Z).
  { apply inject_Z_injective. rewrite inject_Z_plus. exact E. }
  assert (P : Z.even m = true) by (apply T2; lra).
  assert (P' : Z.even m' = true) by (apply T1'; lra).
  rewrite Em, Z.even_add, P' in P. discriminate P.
Qed.

Lemma nearest_le_int (m k : Z) (x : Q) :
  nearest m x -> x <= inject_Z k -> (m <= k)%Z.
Proof.
  intros ((L & U) & _) H.
  destruct (Z.le_gt_cases m k) as [C|C]; [exact C | exfalso].
  pose proof (inject_Z_succ_le C) as S. lra.
Qed.

Lemma nearest_ge_int (m k : Z) (x : Q) :
  nearest m x -> inject_Z k <= x -> (k <= m)%Z.
Proof.
  intros ((L & U) & _) H.
  destruct (Z.le_gt_cases k m) as [C|C]; [exact C | exfalso].
  pose proof (inject_Z_succ_le C) as S. lra.
Qed.

Lemma nearest_int (m k : Z) (x : Q) : nearest m x -> x == inject_Z k -> m = k.
Proof.
  intros N E. apply Z.le_antisymm.
  - apply (nearest_le_int N). rewrite E. apply Qle_refl.
  - apply (nearest_ge_int N). rewrite E. apply Qle_refl.
Qed.

Lemma nearest_small (m : Z) (x : Q) : nearest m x -> x < 1 # 2 -> (m <= 0)%Z.
Proof.
  intros ((L & U) & _) H.
  destruct (Z.le_gt_cases m 0) as [C|C]; [exact C | exfalso].
  pose proof (inject_Z_succ_le C) as S. change (inject_Z 0) with 0 in S. lra.
Qed.

Lemma two_power_opp (ex : Z) : 2 ^ ex == / 2 ^ (- ex).
Proof. rewrite Qpower_opp, Qinv_involutive. reflexivity. Qed.

Lemma two_power_not_0 (k : Z) : ~ 2 ^ k == 0.
Proof. pose proof (two_power_pos k). lra. Qed.

(** The significand is the integer nearest to the scaled rational. *)
Lemma scaled_mantissa_nearest (n d : positive) (ex : Z) :
  nearest (scaled_mantissa n d ex) ((Zpos n # d) / 2 ^ ex).
Proof.
  unfold scaled_mantissa.
  pose proof (two_power_not_0 ex) as N2.
  assert (ND : ~ inject_Z (Zpos d) == 0) by (intro Z; discriminate Z).
  destruct (Z.leb_spec 0 ex) as [P|P].
  - assert (B : (0 < Zpos d * 2 ^ ex)%Z)
      by (apply Z.mul_pos_pos; [lia | apply Z.pow_pos_nonneg; lia]).
    apply (nearest_Qeq (x := inject_Z (Zpos n) / inject_Z (Zpos d * 2 ^ ex)));
      [|now apply round_half_even_nearest].
    rewrite inject_Z_mult, (two_power_inject P), (Qmake_Qdiv (Zpos n) d).
    field. split; assumption.
  - apply (nearest_Qeq (x := inject_Z (Zpos n * 2 ^ (- ex)) / inject_Z (Zpos d)));
      [|apply round_half_even_nearest; lia].
    rewrite inject_Z_mult, two_power_inject by lia.
    rewrite (Qmake_Qdiv (Zpos n) d), (two_power_opp ex).
    pose proof (two_power_not_0 (- ex)) as N3.
    field. split; assumption.
Qed.

(** The exponent found is the binary logarithm, rounded down. *)
Lemma floor_log2_lt (n d : positive) : Zpos n # d < 2 ^ (floor_log2 n d + 1).
Proof.
  unfold floor_log2.
  set (a := Z.log2 (Zpos n)). set (b := Z.log2 (Zpos d)).
  destruct (Qle_bool (2 ^ (a - b)) (Zpos n # d)) eqn:E.
  - destruct (Z.log2_spec (Zpos n) eq_refl) as [_ Hn].
    destruct (Z.log2_spec (Zpos d) eq_refl) as [Hd _].
    pose proof (Z.log2_nonneg (Zpos n)) as Na.
    pose proof (Z.log2_nonneg (Zpos d)) as Nb.
    fold a in Hn, Na. fold b in Hd, Nb.
    replace (a - b + 1)%Z with (Z.succ a - b)%Z by lia.
    rewrite Qpower_minus by (intro Z; discriminate Z).
    rewrite (Qmake_Qdiv (Zpos n) d).
    rewrite <- (two_power_inject Nb), <- (@two_power_inject (Z.succ a)) by lia.
    rewrite Zlt_Qlt in Hn. rewrite Zle_Qle in Hd.
    set (A := inject_Z (2 ^ Z.succ a)) in *. set (B := inject_Z (2 ^ b)) in *.
    set (N := inject_Z (Zpos n)) in *. set (D := inject_Z (Zpos d)) in *.
    assert (PD : 0 < D) by reflexivity.
    assert (PN : 0 < N) by reflexivity.
    assert (PB : 0 < B).
    { change (inject_Z 0 < inject_Z (2 ^ b)).
      rewrite <- Zlt_Qlt. apply Z.pow_pos_nonneg; lia. }
    apply Qlt_shift_div_r; [exact PD|].
    apply Qlt_le_trans with A; [exact Hn|].
    assert (R : 1 <= D / B).
    { apply Qle_shift_div_l; [exact PB|]. now rewrite Qmult_1_l. }
    assert (M : A * 1 <= A * (D / B)).
    { apply Qmult_le_compat_nonneg; [split; [lra | apply Qle_refl]|].
      split; [lra | exact R]. }
    rewrite Qmult_1_r in M.
    apply Qle_trans with (1 := M). apply Qle_lteq. right. field. lra.
  - replace (a - b - 1 + 1)%Z with (a - b)%Z by lia.
    apply Qnot_le_lt. intro L. apply Qle_bool_iff in L. congruence.
Qed.

Lemma two_power_le (a b : Z) : (a <= b)%Z -> 2 ^ a <= 2 ^ b.
Proof. intro H. apply Qpower_le_compat_l; [exact H | discriminate]. Qed.

Lemma two_power_mul (a b : Z) : 2 ^ a * 2 ^ b == 2 ^ (a + b).
Proof. symmetry. apply Qpower_plus. discriminate. Qed.

Lemma two_power_div (a b : Z) : 2 ^ a / 2 ^ b == 2 ^ (a - b).
Proof. symmetry. apply Qpower_minus. discriminate. Qed.

(** Division by a power of two keeps the order. *)
Lemma scale_le (p q : Q) (k : Z) : p <= q -> p / 2 ^ k <= q / 2 ^ k.
Proof.
  intro H. apply Qmult_le_compat_r; [exact H|].
  apply Qlt_le_weak, Qinv_lt_0_compat, two_power_pos.
Qed.

Lemma scale_lt (p q : Q) (k : Z) : p < q -> p / 2 ^ k < q / 2 ^ k.
Proof.
  intro H. apply Qmult_lt_compat_r; [|exact H].
  apply Qinv_lt_0_compat, two_power_pos.
Qed.

(** The logarithm grows with the rational. *)
Lemma floor_log2_mono (n d n' d' : positive) :
  Zpos n # d <= Zpos n' # d' -> (floor_log2 n d <= floor_log2 n' d')%Z.
Proof.
  intro H.
  destruct (Z.le_gt_cases (floor_log2 n d) (floor_log2 n' d')) as [C|C];
    [exact C | exfalso].
  pose proof (floor_log2_le n d) as L.
  pose proof (floor_log2_lt n' d') as U.
  assert (P : 2 ^ (floor_log2 n' d' + 1) <= 2 ^ floor_log2 n d)
    by (apply two_power_le; lia).
  lra.
Qed.

(** The rounded value, before the test of overflow, grows with the
    rational. *)
Lemma rounded_value_mono (n d n' d' : positive) (m m' : Z) :
  nearest m ((Zpos n # d) / 2 ^ Z.max (floor_log2 n d - 52) (-1074)) ->
  nearest m' ((Zpos n' # d') / 2 ^ Z.max (floor_log2 n' d' - 52) (-1074)) ->
  Zpos n # d <= Zpos n' # d' ->
  inject_Z m * 2 ^ Z.max (floor_log2 n d - 52) (-1074)
  <= inject_Z m' * 2 ^ Z.max (floor_log2 n' d' - 52) (-1074).
Proof.
  intros N N' H.
  pose proof (@floor_log2_mono n d n' d' H) as E.
  pose proof (floor_log2_le n' d') as L'.
  pose proof (floor_log2_lt n d) as U.
  set (q := Zpos n # d) in *. set (q' := Zpos n' # d') in *.
  set (e := floor_log2 n d) in *. set (e' := floor_log2 n' d') in *.
  set (ex := Z.max (e - 52) (-1074)) in *.
  set (ex' := Z.max (e' - 52) (-1074)) in *.
  destruct (Z.eq_dec ex ex') as [X|X].
  - rewrite <- X in *.
    assert (M : (m <= m')%Z) by (apply (nearest_mono N N'); now apply scale_le).
    apply Qmult_le_compat_r; [now rewrite <- Zle_Qle|].
    apply Qlt_le_weak, two_power_pos.
  - assert (X' : ex' = (e' - 52)%Z /\ (e + 1 <= e')%Z) by (unfold ex, ex' in *; lia).
    destruct X' as [X' Ee].
    apply Qle_trans with (2 ^ (e + 1)); [|apply Qle_trans with (2 ^ e')].
    + destruct (Z.le_gt_cases ex (e + 1)) as [C|C].
      * assert (K : (m <= 2 ^ (e + 1 - ex))%Z).
        { apply (nearest_le_int N).
          rewrite two_power_inject by lia. rewrite <- two_power_div.
          apply Qlt_le_weak. now apply scale_lt. }
        rewrite Zle_Qle, two_power_inject in K by lia.
        apply (Qmult_le_compat_r _ _ (2 ^ ex)) in K;
          [|apply Qlt_le_weak, two_power_pos].
        apply Qle_trans with (1 := K). rewrite two_power_mul.
        replace (e + 1 - ex + ex)%Z with (e + 1)%Z by lia. apply Qle_refl.
      * assert (K : (m <= 0)%Z).
        { apply (nearest_small N).
          apply Qlt_le_trans with (2 ^ (e + 1) / 2 ^ ex); [now apply scale_lt|].
          rewrite two_power_div.
          apply Qle_trans with (2 ^ (-1)); [apply two_power_le; lia|].
          apply Qle_refl. }
        apply Qle_trans with 0; [|apply Qlt_le_weak, two_power_pos].
        rewrite Zle_Qle in K. change (inject_Z 0) with 0 in K.
        pose proof (two_power_pos ex) as P.
        setoid_replace 0 with (0 * 2 ^ ex) by ring.
        apply Qmult_le_compat_r; [exact K | now apply Qlt_le_weak].
    + apply two_power_le. lia.
    + assert (K : (2 ^ 52 <= m')%Z).
      { apply (nearest_ge_int N').
        rewrite two_power_inject by lia.
        replace 52%Z with (e' - ex')%Z at 1 by lia.
        rewrite <- two_power_div. now apply scale_le. }
      rewrite Zle_Qle, two_power_inject in K by lia.
      apply (Qmult_le_compat_r _ _ (2 ^ ex')) in K;
        [|apply Qlt_le_weak, two_power_pos].
      apply Qle_trans with (2 := K). rewrite two_power_mul.
      replace (52 + ex')%Z with e' by lia. apply Qle_refl.
Qed.

(** The two outcomes of the rounding of a positive rational. *)
Lemma round_pos_value (n d : positive) :
  exists m : Z,
    nearest m ((Zpos n # d) / 2 ^ Z.max (floor_log2 n d - 52) (-1074)) /\
    (0 <= m)%Z /\
    ((2 ^ 1024 <= inject_Z m * 2 ^ Z.max (floor_log2 n d - 52) (-1074) /\
      round_pos n d = PInf) \/
     (inject_Z m * 2 ^ Z.max (floor_log2 n d - 52) (-1074) < 2 ^ 1024 /\
      exists v : Q,
        round_pos n d = Fin v /\
        v == inject_Z m * 2 ^ Z.max (floor_log2 n d - 52) (-1074))).
Proof.
  unfold round_pos.
  set (ex := Z.max (floor_log2 n d - 52) (-1074)).
  exists (scaled_mantissa n d ex).
  split; [apply scaled_mantissa_nearest|].
  split; [apply scaled_mantissa_nonneg|].
  set (m := scaled_mantissa n d ex).
  destruct (Qle_bool (2 ^ 1024) (Qred (inject_Z m * 2 ^ ex))) eqn:O.
  - left. apply Qle_bool_iff in O. rewrite Qred_correct in O.
    split; [exact O | reflexivity].
  - right. split.
    + apply Qnot_le_lt. intro L. rewrite <- (Qred_correct (inject_Z m * 2 ^ ex)) in L.
      apply Qle_bool_iff in L. congruence.
    + exists (Qred (inject_Z m * 2 ^ ex)). split; [reflexivity|].
      apply Qred_correct.
Qed.

Lemma round_pos_mono (n d n' d' : positive) :
  Zpos n # d <= Zpos n' # d' -> num_le (round_pos n d) (round_pos n' d').
Proof.
  intro H.
  destruct (round_pos_value n d) as (m & N & _ & [(O & R)|(O & v & R & V)]);
    destruct (round_pos_value n' d')
      as (m' & N' & _ & [(O' & R')|(O' & v' & R' & V')]);
    pose proof (rounded_value_mono N N' H) as M;
    rewrite R, R'; cbn [num_le]; try exact I.
  - lra.
  - rewrite V, V'. exact M.
Qed.

Lemma num_le_trans (a b c : num) : num_le a b -> num_le b c -> num_le a c.
Proof.
  destruct a, b, c; cbn [num_le]; try tauto. apply Qle_trans.
Qed.

Lemma num_le_neg (a b : num) : num_le a b -> num_le (neg b) (neg a).
Proof.
  destruct a, b; cbn [num_le neg]; try tauto. apply Qopp_le_compat.
Qed.

Lemma round_pos_sign (n d : positive) : num_le (Fin 0) (round_pos n d).
Proof.
  destruct (round_pos_nonneg n d) as [E|(r & E & H)]; rewrite E; [exact I | exact H].
Qed.

(** The three cases of the rounding, by the sign. *)
Lemma round_cases (q : Q) :
  (q == 0 /\ round q = Fin 0) \/
  (exists n d : positive, Zpos n # d == q /\ round q = round_pos n d) \/
  (exists n d : positive, Zpos n # d == - q /\ round q = neg (round_pos n d)).
Proof.
  unfold round. pose proof (Qred_correct q) as C.
  destruct (Qred q) as [[|n|n] d].
  - left. split; [|reflexivity]. rewrite <- C. reflexivity.
  - right; left. exists n, d. split; [exact C | reflexivity].
  - right; right. exists n, d. split; [|reflexivity].
    rewrite <- C. reflexivity.
Qed.

(** Rounding keeps the order: the double of the lesser rational is not
    above the double of the greater. *)
Lemma round_mono (p q : Q) : p <= q -> num_le (round p) (round q).
Proof.
  intro H.
  destruct (round_cases p) as [(Zp & Rp)|[(n & d & Ep & Rp)|(n & d & Ep & Rp)]];
    destruct (round_cases q)
      as [(Zq & Rq)|[(n' & d' & Eq & Rq)|(n' & d' & Eq & Rq)]];
    rewrite Rp, Rq.
  - apply Qle_refl.
  - apply round_pos_sign.
  - exfalso. assert (P : 0 < Zpos n' # d') by reflexivity. lra.
  - exfalso. assert (P : 0 < Zpos n # d) by reflexivity. lra.
  - apply round_pos_mono. now rewrite Ep, Eq.
  - exfalso. assert (P : 0 < Zpos n # d) by reflexivity.
    assert (P' : 0 < Zpos n' # d') by reflexivity. lra.
  - apply (@num_le_neg (Fin 0) (round_pos n d)), round_pos_sign.
  - apply num_le_trans with (Fin 0).
    + apply (@num_le_neg (Fin 0) (round_pos n d)), round_pos_sign.
    + apply round_pos_sign.
  - apply num_le_neg, round_pos_mono. rewrite Ep, Eq. lra.
Qed.

Lemma num_le_NInf (a : num) : a <> NaN -> num_le NInf a.
Proof. destruct a; cbn [num_le]; tauto. Qed.

Lemma num_le_PInf (a : num) : a <> NaN -> num_le a PInf.
Proof. destruct a; cbn [num_le]; tauto. Qed.

(** The product by a number that is not negative keeps the order. *)
Lemma mul_mono (p q s : Q) :
  0 <= s -> p <= q -> num_le (Fin p * Fin s)%num (Fin q * Fin s)%num.
Proof.
  intros S H. cbn [mul]. apply round_mono. now apply Qmult_le_compat_r.
Qed.

(** The sum with a finite number keeps the order. *)
Lemma add_mono (a b : num) (c : Q) :
  num_le a b -> num_le (a + Fin c)%num (b + Fin c)%num.
Proof.
  destruct a as [p| | |], b as [q| | |]; cbn [num_le add]; try tauto; intro H.
  - apply round_mono. lra.
  - apply num_le_PInf, round_not_NaN.
  - apply num_le_NInf, round_not_NaN.
Qed.

(** The difference from a finite number reverses the order. *)
Lemma sub_antitone (a b : num) (c : Q) :
  num_le a b -> num_le (Fin c - b)%num (Fin c - a)%num.
Proof.
  unfold sub.
  destruct a as [p| | |], b as [q| | |]; cbn [num_le add neg]; try tauto; intro H.
  - apply round_mono. lra.
  - apply num_le_NInf, round_not_NaN.
  - apply num_le_PInf, round_not_NaN.
Qed.

Lemma num_le_ltb (a b : num) : num_le a b -> ltb b a = false.
Proof.
  destruct a as [p| | |], b as [q| | |]; cbn [num_le ltb]; try tauto.
  intro H. now apply Qlt_b_false.
Qed.

Lemma two_power_double (k : Z) : 2 * 2 ^ k == 2 ^ (k + 1).
Proof.
  rewrite <- two_power_mul. rewrite (Qpower_1_r 2). ring.
Qed.

Lemma on_grid_sub (a b : Q) : on_grid a -> on_grid b -> on_grid (a - b).
Proof.
  intros [ka Ha] [kb Hb]. exists (ka - kb)%Z.
  rewrite Ha, Hb. unfold Z.sub. rewrite inject_Z_plus, inject_Z_opp. ring.
Qed.

(** The double of a positive multiple of [2 ^ -1074], when finite, is
    within [2 ^ -53] of it, relatively. *)
Lemma round_error (q : Q) :
  0 <= q -> on_grid q ->
  round q = PInf \/
  exists v : Q,
    round q = Fin v /\
    (1 - 2 ^ (-53)) * q <= v /\ v <= (1 + 2 ^ (-53)) * q.
Proof.
  intros P [k G].
  pose proof (two_power_pos (-53)) as E53.
  destruct (round_cases q) as [(Z & R)|[(n & d & E & R)|(n & d & E & R)]].
  - right. exists 0. split; [exact R|]. rewrite Z. split; lra.
  - rewrite R.
    destruct (round_pos_value n d) as (m & N & _ & [(_ & O)|(_ & v & O & V)]);
      [left; exact O | right].
    exists v. split; [exact O|]. rewrite V. clear O V v R.
    pose proof (floor_log2_le n d) as L. rewrite E in L.
    apply (@nearest_Qeq m _ (q / 2 ^ Z.max (floor_log2 n d - 52) (-1074))) in N;
      [|now rewrite E].
    set (e := floor_log2 n d) in *.
    pose proof (two_power_pos (Z.max (e - 52) (-1074))) as U.
    assert (X : q / 2 ^ Z.max (e - 52) (-1074) * 2 ^ Z.max (e - 52) (-1074) == q)
      by (field; lra).
    destruct (Z.max_spec (e - 52) (-1074)) as [[C M]|[C M]]; rewrite M in *.
    + assert (Em : m = k).
      { apply (nearest_int N). rewrite G. field. lra. }
      rewrite Em, <- G.
      assert (T : 0 <= 2 ^ (-53) * q) by (apply Qmult_le_0_compat; lra).
      split; lra.
    + destruct N as ((N1 & N2) & _).
      set (u := 2 ^ (e - 52)) in *. set (x := q / u) in *.
      apply (Qmult_le_compat_r _ _ u) in N1; [|lra].
      apply (Qmult_le_compat_r _ _ u) in N2; [|lra].
      rewrite X in N1, N2.
      assert (H : u == 2 * (2 ^ (-53) * 2 ^ e)).
      { unfold u. rewrite two_power_mul, two_power_double.
        now replace (-53 + e + 1)%Z with (e - 52)%Z by lia. }
      assert (B : 2 ^ (-53) * 2 ^ e <= 2 ^ (-53) * q)
        by (apply Qmult_le_l; assumption).
      set (h := 2 ^ (-53) * 2 ^ e) in *. set (g := 2 ^ (-53) * q) in *.
      set (mu := inject_Z m * u) in *.
      assert (N1' : mu - (1 # 2) * u <= q) by (unfold mu; lra).
      assert (N2' : q <= mu + (1 # 2) * u) by (unfold mu; lra).
      rewrite H in N1', N2'.
      assert (G1 : (1 - 2 ^ (-53)) * q == q - g) by (unfold g; ring).
      assert (G2 : (1 + 2 ^ (-53)) * q == q + g) by (unfold g; ring).
      rewrite G1, G2. split; lra.
  - exfalso. assert (Pn : 0 < Zpos n # d) by reflexivity. lra.
Qed.

Lemma two_power_le_inv (a b : Z) : 2 ^ a <= 2 ^ b -> (a <= b)%Z.
Proof. intro H. apply (Qpower_le_compat_l_inv 2); [exact H | reflexivity]. Qed.

(** The significand has 53 bits, or is [2 ^ 53]. *)
Lemma mantissa_bound (n d : positive) (m : Z) :
  nearest m ((Zpos n # d) / 2 ^ Z.max (floor_log2 n d - 52) (-1074)) ->
  (m <= 2 ^ 53)%Z.
Proof.
  intro N. pose proof (floor_log2_lt n d) as U.
  set (e := floor_log2 n d) in *. set (ex := Z.max (e - 52) (-1074)) in *.
  destruct (Z.le_gt_cases ex (e + 1)) as [C|C].
  - apply Z.le_trans with (2 ^ (e + 1 - ex))%Z.
    + apply (nearest_le_int N).
      rewrite two_power_inject by lia. rewrite <- two_power_div.
      apply Qlt_le_weak. now apply scale_lt.
    + apply Z.pow_le_mono_r; unfold ex; lia.
  - apply Z.le_trans with 0%Z; [|apply Z.pow_nonneg; lia].
    apply (nearest_small N).
    apply Qlt_le_trans with (2 ^ (e + 1) / 2 ^ ex); [now apply scale_lt|].
    rewrite two_power_div.
    apply Qle_trans with (2 ^ (-1)); [apply two_power_le; lia | apply Qle_refl].
Qed.

(** A significand times a power of two, rounded once more, is itself. *)
Lemma reround (m ex : Z) (n d : positive) (m' : Z) :
  (1 <= m <= 2 ^ 53)%Z -> (-1074 <= ex)%Z ->
  Zpos n # d == inject_Z m * 2 ^ ex ->
  nearest m' ((Zpos n # d) / 2 ^ Z.max (floor_log2 n d - 52) (-1074)) ->
  inject_Z m' * 2 ^ Z.max (floor_log2 n d - 52) (-1074) == inject_Z m * 2 ^ ex.
Proof.
  intros [M1 M53] X E N.
  pose proof (floor_log2_le n d) as L. rewrite E in L.
  apply (@nearest_Qeq m' _
           (inject_Z m * 2 ^ ex / 2 ^ Z.max (floor_log2 n d - 52) (-1074)))
    in N; [|now rewrite E].
  set (e := floor_log2 n d) in *. set (ex' := Z.max (e - 52) (-1074)) in *.
  pose proof (two_power_pos ex) as U. pose proof (two_power_pos ex') as U'.
  assert (B : inject_Z m * 2 ^ ex <= 2 ^ (53 + ex)).
  { rewrite <- two_power_mul. apply Qmult_le_compat_r; [|lra].
    rewrite <- two_power_inject by lia. now rewrite <- Zle_Qle. }
  assert (Le : (e <= 53 + ex)%Z)
    by (apply two_power_le_inv; now apply Qle_trans with (inject_Z m * 2 ^ ex)).
  destruct (Z.le_gt_cases e (52 + ex)) as [C|C].
  - assert (D : (0 <= ex - ex')%Z) by (unfold ex'; lia).
    assert (K : m' = (m * 2 ^ (ex - ex'))%Z).
    { apply (nearest_int N).
      rewrite inject_Z_mult, two_power_inject by exact D.
      rewrite <- two_power_div. field. lra. }
    rewrite K, inject_Z_mult, two_power_inject by exact D.
    rewrite <- Qmult_assoc, two_power_mul.
    now replace (ex - ex' + ex')%Z with ex by lia.
  - assert (Ee : e = (53 + ex)%Z) by lia.
    assert (Ex' : ex' = (ex + 1)%Z) by (unfold ex'; lia).
    assert (Em : m = (2 ^ 53)%Z).
    { apply Z.le_antisymm; [exact M53|].
      rewrite Zle_Qle, two_power_inject by lia.
      rewrite Ee, <- two_power_mul in L.
      apply Qmult_le_r in L; [exact L | exact U]. }
    assert (K : m' = (2 ^ 52)%Z).
    { apply (nearest_int N).
      rewrite Em, Ex', !two_power_inject by lia.
      rewrite two_power_mul, two_power_div.
      now replace (53 + ex - (ex + 1))%Z with 52%Z by lia. }
    rewrite K, Em, Ex', !two_power_inject by lia.
    rewrite !two_power_mul.
    now replace (52 + (ex + 1))%Z with (53 + ex)%Z by lia.
Qed.

(** What the rounding returns, the rounding leaves as it is. *)
Lemma round_pos_exact (n d : positive) (v : Q) :
  round_pos n d = Fin v -> exactb v = true.
Proof.
  intro R.
  destruct (round_pos_value n d) as (m & N & M0 & [(_ & O)|(O & v0 & R0 & V)]);
    [congruence|].
  rewrite R in R0. injection R0 as <-.
  pose proof (mantissa_bound N) as M53. clear N R.
  set (ex := Z.max (floor_log2 n d - 52) (-1074)) in *.
  assert (X1 : (-1074 <= ex)%Z) by (unfold ex; lia).
  assert (G : exists v' : Q, round v = Fin v' /\ v' == v).
  { destruct (Z.eq_dec m 0) as [Z|Z].
    - exists 0. rewrite Z in V. rewrite Qmult_0_l in V.
      split; [now apply round_zero | now rewrite V].
    - assert (Pv : 0 < v).
      { rewrite V. apply Qmult_lt_0_compat; [|apply two_power_pos].
        change (inject_Z 0 < inject_Z m). rewrite <- Zlt_Qlt. lia. }
      destruct (round_cases v)
        as [(Zv & _)|[(n2 & d2 & E2 & R2)|(n2 & d2 & E2 & _)]].
      + exfalso. lra.
      + rewrite R2.
        destruct (round_pos_value n2 d2)
          as (m2 & N2 & _ & [(O2 & _)|(_ & v2 & R3 & V2)]).
        * exfalso. rewrite V in E2.
          rewrite (@reround m ex n2 d2 m2 ltac:(lia) X1 E2 N2) in O2. lra.
        * exists v2. split; [exact R3|]. rewrite V in E2.
          now rewrite V2, V, (@reround m ex n2 d2 m2 ltac:(lia) X1 E2 N2).
      + exfalso. assert (Pn : 0 < Zpos n2 # d2) by reflexivity. lra. }
  destruct G as (v' & Rv & Ev). unfold exactb. rewrite Rv.
  now apply Qeq_bool_iff.
Qed.

(** Every finite result of the rounding is a double: rounding leaves it
    as it is. *)
Lemma round_exact (q v : Q) : round q = Fin v -> exactb v = true.
Proof.
  intro R.
  destruct (round_cases q) as [(_ & Z)|[(n & d & _ & P)|(n & d & _ & P)]];
    rewrite R in *.
  - injection Z as ->. reflexivity.
  - symmetry in P. exact (round_pos_exact _ _ P).
  - destruct (round_pos n d) as [w| | |] eqn:W; try discriminate P.
    cbn [neg] in P. injection P as ->.
    pose proof (round_pos_exact _ _ W) as X.
    unfold exactb in *. rewrite round_opp.
    destruct (round w) as [r| | |]; try discriminate X. cbn [neg].
    apply Qeq_bool_iff in X. apply Qeq_bool_iff. now rewrite X.
Qed.

Lemma double_num_round (q : Q) : double_num (round q).
Proof.
  destruct (round q) as [v| | |] eqn:R; cbn [double_num]; try exact I.
  exact (round_exact _ R).
Qed.

Lemma exactb_opp (q : Q) : exactb q = true -> exactb (- q) = true.
Proof.
  unfold exactb. rewrite round_opp.
  destruct (round q) as [r| | |]; try discriminate. cbn [neg].
  intro X. apply Qeq_bool_iff in X. apply Qeq_bool_iff. now rewrite X.
Qed.

Lemma double_num_neg (a : num) : double_num a -> double_num (neg a).
Proof. destruct a; cbn [double_num neg]; auto using exactb_opp. Qed.

End NearestFacts.

(** ** Bounds of real point sequences *)

Section BoundsFacts.

Local Open Scope Q_scope.

Lemma map_x_real_points (l : list (Q * Q)) :
  map x (real_points l) = map Number (map Fin (map fst l)).
Proof. unfold real_points. now rewrite !map_map. Qed.

Lemma map_y_real_points (l : list (Q * Q)) :
  map y (real_points l) = map Number (map Fin (map snd l)).
Proof. unfold real_points. now rewrite !map_map. Qed.

Lemma Forall_map_fst (P : Q -> Prop) (l : list (Q * Q)) :
  Forall P (map fst l) <-> Forall (fun q => P (fst q)) l.
Proof. apply Forall_map. Qed.

Lemma Forall_map_snd (P : Q -> Prop) (l : list (Q * Q)) :
  Forall P (map snd l) <-> Forall (fun q => P (snd q)) l.
Proof. apply Forall_map. Qed.

(** [getBounds] along x, on a non-empty sequence of points with real
    coordinates. *)
Lemma getBounds_real_x (p : Q * Q) (l : list (Q * Q)) :
  exists x0 x1 : Q,
    minX (getBounds (real_points (p :: l))) = Fin x0 /\
    maxX (getBounds (real_points (p :: l))) = Fin x1 /\
    Forall (fun q => x0 <= fst q /\ fst q <= x1) (p :: l) /\
    In x0 (map fst (p :: l)) /\ In x1 (map fst (p :: l)) /\
    width (getBounds (real_points (p :: l))) = round (x1 - x0).
Proof.
  unfold getBounds. cbn [minX maxX width].
  rewrite map_x_real_points.
  destruct (Math_min_Fin (fst p) (map fst l)) as (x0 & E0 & I0 & F0).
  destruct (Math_max_Fin (fst p) (map fst l)) as (x1 & E1 & I1 & F1).
  change (fst p :: map fst l) with (map fst (p :: l)) in *.
  exists x0, x1. rewrite E0, E1.
  rewrite Forall_map_fst in F0, F1. rewrite Forall_forall in *.
  repeat split; auto.
Qed.

(** [getBounds] along y. *)
Lemma getBounds_real_y (p : Q * Q) (l : list (Q * Q)) :
  exists y0 y1 : Q,
    minY (getBounds (real_points (p :: l))) = Fin y0 /\
    maxY (getBounds (real_points (p :: l))) = Fin y1 /\
    Forall (fun q => y0 <= snd q /\ snd q <= y1) (p :: l) /\
    In y0 (map snd (p :: l)) /\ In y1 (map snd (p :: l)) /\
    height (getBounds (real_points (p :: l))) = round (y1 - y0).
Proof.
  unfold getBounds. cbn [minY maxY height].
  rewrite map_y_real_points.
  destruct (Math_min_Fin (snd p) (map snd l)) as (y0 & E0 & I0 & F0).
  destruct (Math_max_Fin (snd p) (map snd l)) as (y1 & E1 & I1 & F1).
  change (snd p :: map snd l) with (map snd (p :: l)) in *.
  exists y0, y1. rewrite E0, E1.
  rewrite Forall_map_snd in F0, F1. rewrite Forall_forall in *.
  repeat split; auto.
Qed.

(** [getBounds] along either axis. *)
Lemma getBounds_real_along (a : axis) (p : Q * Q) (l : list (Q * Q)) :
  exists lo hi : Q,
    lower a (getBounds (real_points (p :: l))) = Fin lo /\
    upper a (getBounds (real_points (p :: l))) = Fin hi /\
    (forall q, In q (p :: l) -> lo <= along a q /\ along a q <= hi) /\
    (exists q, In q (p :: l) /\ along a q = lo) /\
    (exists q, In q (p :: l) /\ along a q = hi) /\
    extent a (getBounds (real_points (p :: l))) = round (hi - lo).
Proof.
  destruct a; cbn [lower upper extent along].
  - destruct (getBounds_real_x p l) as (x0 & x1 & E0 & E1 & F & I0 & I1 & Ew).
    exists x0, x1. rewrite Forall_forall in F.
    apply in_map_iff in I0, I1.
    destruct I0 as (q0 & Eq0 & Hq0), I1 as (q1 & Eq1 & Hq1).
    repeat split; eauto; apply F; assumption.
  - destruct (getBounds_real_y p l) as (y0 & y1 & E0 & E1 & F & I0 & I1 & Eh).
    exists y0, y1. rewrite Forall_forall in F.
    apply in_map_iff in I0, I1.
    destruct I0 as (q0 & Eq0 & Hq0), I1 as (q1 & Eq1 & Hq1).
    repeat split; eauto; apply F; assumption.
Qed.

Lemma doubles_In (l : list (Q * Q)) (q : Q * Q) (a : axis) :
  doubles l = true -> In q l -> on_grid (along a q).
Proof.
  unfold doubles. rewrite forallb_forall. intros H I.
  apply H, andb_true_iff in I. destruct I as [Hx Hy].
  destruct a; cbn [along]; now apply exactb_grid.
Qed.

(** The extent among doubles: the real difference, up to [2 ^ -53] of
    it, unless it overflows. *)
Lemma extent_error (a : axis) (p : Q * Q) (l : list (Q * Q)) (lo hi : Q) :
  doubles (p :: l) = true ->
  lower a (getBounds (real_points (p :: l))) = Fin lo ->
  upper a (getBounds (real_points (p :: l))) = Fin hi ->
  extent a (getBounds (real_points (p :: l))) = PInf \/
  exists e : Q,
    extent a (getBounds (real_points (p :: l))) = Fin e /\
    (1 - 2 ^ (-53)) * (hi - lo) <= e /\ e <= (1 + 2 ^ (-53)) * (hi - lo).
Proof.
  intros D Hlo Hhi.
  destruct (getBounds_real_along a p l)
    as (lo' & hi' & El & Eh & F & (ql & Il & Al) & (qh & Ih & Ah) & Ee).
  rewrite El in Hlo. rewrite Eh in Hhi.
  injection Hlo as <-. injection Hhi as <-.
  rewrite Ee. apply round_error.
  - destruct (F ql Il) as [_ U]. rewrite Al in U. lra.
  - apply on_grid_sub.
    + rewrite <- Ah. now apply doubles_In with (p :: l).
    + rewrite <- Al. now apply doubles_In with (p :: l).
Qed.

(** C4, as the code has it: on a non-empty sequence of points with real
    coordinates the four extrema are finite, every point lies between the
    minima and the maxima, each of the four is the coordinate of a point of
    the sequence, and width and height are the binary64 differences
    [maxX - minX] and [maxY - minY]: the doubles nearest to the real
    differences, hence the real differences whenever those are doubles
    and, the coordinates being doubles, either +Infinity or within
    [2 ^ -53] of the real differences, relatively. *)
Theorem getBounds_extrema (p : Q * Q) (l : list (Q * Q)) :
  exists x0 x1 y0 y1 : Q,
    (minX (getBounds (real_points (p :: l))) = Fin x0 /\
     maxX (getBounds (real_points (p :: l))) = Fin x1 /\
     minY (getBounds (real_points (p :: l))) = Fin y0 /\
     maxY (getBounds (real_points (p :: l))) = Fin y1) /\
    Forall (fun q => (x0 <= fst q /\ fst q <= x1) /\ (y0 <= snd q /\ snd q <= y1))
           (p :: l) /\
    (In x0 (map fst (p :: l)) /\ In x1 (map fst (p :: l)) /\
     In y0 (map snd (p :: l)) /\ In y1 (map snd (p :: l))) /\
    (width (getBounds (real_points (p :: l))) = (Fin x1 - Fin x0)%num /\
     height (getBounds (real_points (p :: l))) = (Fin y1 - Fin y0)%num) /\
    (width (getBounds (real_points (p :: l))) = round (x1 - x0) /\
     height (getBounds (real_points (p :: l))) = round (y1 - y0)) /\
    (exactb (x1 - x0) = true ->
     holds (width (getBounds (real_points (p :: l)))) (x1 - x0)) /\
    (exactb (y1 - y0) = true ->
     holds (height (getBounds (real_points (p :: l)))) (y1 - y0)) /\
    (doubles (p :: l) = true ->
     (width (getBounds (real_points (p :: l))) = PInf \/
      exists w : Q,
        width (getBounds (real_points (p :: l))) = Fin w /\
        (1 - 2 ^ (-53)) * (x1 - x0) <= w /\ w <= (1 + 2 ^ (-53)) * (x1 - x0)) /\
     (height (getBounds (real_points (p :: l))) = PInf \/
      exists h : Q,
        height (getBounds (real_points (p :: l))) = Fin h /\
        (1 - 2 ^ (-53)) * (y1 - y0) <= h /\ h <= (1 + 2 ^ (-53)) * (y1 - y0))).
Proof.
  destruct (getBounds_real_x p l) as (x0 & x1 & Ex0 & Ex1 & Fx & Ix0 & Ix1 & Ew).
  destruct (getBounds_real_y p l) as (y0 & y1 & Ey0 & Ey1 & Fy & Iy0 & Iy1 & Eh).
  exists x0, x1, y0, y1.
  split; [auto|].
  split.
  { rewrite Forall_forall in *. intros q Hq.
    split; [apply Fx | apply Fy]; exact Hq. }
  split; [auto|].
  split; [rewrite !sub_Fin; split; assumption|].
  split; [split; assumption|].
  split; [rewrite Ew; apply exactb_round|].
  split; [rewrite Eh; apply exactb_round|].
  intro D. split.
  - exact (@extent_error AxisX p l x0 x1 D Ex0 Ex1).
  - exact (@extent_error AxisY p l y0 y1 D Ey0 Ey1).
Qed.

(** The input [POLYGON((1e16 0, -1 1, 0 2))]: the extrema along x are
    [-1] and [1e16], and the width is [1e16], which is not
    [1e16 - (-1)]. *)
Lemma getBounds_width_rounded :
  parseWKTPolygon ring_wide
  = real_points [(10000000000000000, 0); (-1 # 1, 1); (0, 2)] /\
  minX (getBounds (parseWKTPolygon ring_wide)) = Fin (-1 # 1) /\
  maxX (getBounds (parseWKTPolygon ring_wide)) = Fin 10000000000000000 /\
  width (getBounds (parseWKTPolygon ring_wide)) = Fin 10000000000000000 /\
  ~ 10000000000000000 == 10000000000000000 - (-1 # 1).
Proof.
  split; [vm_compute; reflexivity|].
  split; [vm_compute; reflexivity|].
  split; [vm_compute; reflexivity|].
  split; [vm_compute; reflexivity|].
  intro H. vm_compute in H. discriminate H.
Qed.

Lemma same_bounds_along (b b' : Bounds) :
  (forall a : axis,
      same_num (lower a b) (lower a b') /\
      same_num (upper a b) (upper a b') /\
      same_num (extent a b) (extent a b')) ->
  same_bounds b b'.
Proof.
  intro H. destruct (H AxisX) as (Lx & Ux & Ex), (H AxisY) as (Ly & Uy & Ey).
  cbn [lower upper extent] in *. unfold same_bounds. tauto.
Qed.

Lemma same_num_refl (a : num) : same_num a a.
Proof. destruct a; cbn [same_num]; auto. apply Qeq_refl. Qed.

(** X1: the bounds of a non-empty sequence of points with real
    coordinates depend on which points occur only, not on their order nor
    on how often each occurs: two sequences with the same points have the
    same bounds.  Repeating the first vertex at the end of a ring leaves
    the bounds as they were. *)
Theorem getBounds_same_vertices (p p' : Q * Q) (l l' : list (Q * Q)) :
  (forall q, In q (p :: l) <-> In q (p' :: l')) ->
  same_bounds (getBounds (real_points (p :: l)))
              (getBounds (real_points (p' :: l'))).
Proof.
  intro S. apply same_bounds_along. intro a.
  destruct (getBounds_real_along a p l)
    as (lo & hi & El & Eh & F & (ql & Il & Al) & (qh & Ih & Ah) & Ee).
  destruct (getBounds_real_along a p' l')
    as (lo' & hi' & El' & Eh' & F' & (ql' & Il' & Al') & (qh' & Ih' & Ah') & Ee').
  rewrite El, Eh, Ee, El', Eh', Ee'. cbn [same_num].
  assert (L1 : lo <= lo') by (rewrite <- Al'; apply F, S, Il').
  assert (L2 : lo' <= lo) by (rewrite <- Al; apply F', S, Il).
  assert (H1 : hi <= hi') by (rewrite <- Ah; apply F', S, Ih).
  assert (H2 : hi' <= hi) by (rewrite <- Ah'; apply F, S, Ih').
  split; [lra|]. split; [lra|].
  rewrite (@round_Qeq (hi - lo) (hi' - lo')) by lra.
  apply same_num_refl.
Qed.

Lemma getBounds_same_vertices_witness :
  same_bounds
    (getBounds (real_points [(0, 0); (10, 0); (10, 10); (0, 10)]))
    (getBounds (real_points [(0, 0); (10, 0); (10, 10); (0, 10); (0, 0)])).
Proof.
  apply (@getBounds_same_vertices (0, 0) (0, 0)
           [(10, 0); (10, 10); (0, 10)]
           [(10, 0); (10, 10); (0, 10); (0, 0)]).
  intro q. simpl. tauto.
Defined.

Lemma strict_eq_zero (q : Q) : q == 0 -> (Fin q === of_Z 0)%num = true.
Proof. intro H. unfold strict_eq, of_Z. now apply Qeq_bool_iff. Qed.

(** Points that share a coordinate have bounds of no extent along it. *)
Lemma collinear_extent_zero (a : axis) (p : Q * Q) (l : list (Q * Q)) :
  collinear a (p :: l) ->
  (extent a (getBounds (real_points (p :: l))) === of_Z 0)%num = true.
Proof.
  intros [c Hc].
  destruct (getBounds_real_along a p l)
    as (lo & hi & El & Eh & F & (ql & Il & Al) & (qh & Ih & Ah) & Ee).
  rewrite Forall_forall in Hc.
  pose proof (Hc ql Il) as C0. pose proof (Hc qh Ih) as C1.
  cbv beta in C0, C1. fold (along a ql) in C0. fold (along a qh) in C1.
  rewrite Al in C0. rewrite Ah in C1.
  rewrite Ee, round_zero by lra. reflexivity.
Qed.

(** Among doubles, an extent of zero is for points that share the
    coordinate only. *)
Lemma extent_zero_collinear (a : axis) (p : Q * Q) (l : list (Q * Q)) :
  (forall q, In q (p :: l) -> on_grid (along a q)) ->
  (extent a (getBounds (real_points (p :: l))) === of_Z 0)%num = true ->
  collinear a (p :: l).
Proof.
  intros D Z.
  destruct (getBounds_real_along a p l)
    as (lo & hi & El & Eh & F & (ql & Il & Al) & (qh & Ih & Ah) & Ee).
  rewrite Ee, <- sub_Fin in Z.
  apply sub_zero_iff in Z.
  - exists lo. apply Forall_forall. intros q Hq.
    destruct (F q Hq) as [L U].
    change (along a q == lo). lra.
  - rewrite <- Ah. now apply D.
  - rewrite <- Al. now apply D.
Qed.

(** X2: on a non-empty sequence of points with real coordinates the
    width and the height are not negative: a rational that is not
    negative, or +Infinity.  The extent along an axis is [=== 0] when all
    the points share their coordinate along that axis, and, the
    coordinates being doubles, then only. *)
Theorem extent_zero_iff_collinear (a : axis) (p : Q * Q) (l : list (Q * Q)) :
  (extent a (getBounds (real_points (p :: l))) = PInf \/
   exists e : Q,
     extent a (getBounds (real_points (p :: l))) = Fin e /\ 0 <= e) /\
  (collinear a (p :: l) ->
   (extent a (getBounds (real_points (p :: l))) === of_Z 0)%num = true) /\
  (doubles (p :: l) = true ->
   ((extent a (getBounds (real_points (p :: l))) === of_Z 0)%num = true
    <-> collinear a (p :: l))).
Proof.
  split; [|split].
  - destruct (getBounds_real_along a p l)
      as (lo & hi & El & Eh & F & (ql & Il & Al) & (qh & Ih & Ah) & Ee).
    rewrite Ee. apply round_nonneg.
    destruct (F ql Il) as [_ U]. rewrite Al in U. lra.
  - apply collinear_extent_zero.
  - intro D. split; [|apply collinear_extent_zero].
    apply extent_zero_collinear. intros q Hq. now apply doubles_In with (p :: l).
Qed.

Lemma extent_zero_iff_collinear_witness :
  (width (getBounds (real_points [(1, 0); (1, 5); (1, 9)])) === of_Z 0)%num
  = true <-> collinear AxisX [(1, 0); (1, 5); (1, 9)].
Proof.
  apply (@extent_zero_iff_collinear AxisX (1, 0) [(1, 5); (1, 9)]).
  vm_compute. reflexivity.
Defined.

End BoundsFacts.

(** ** The label position *)

Section LabelFacts.

Local Open Scope Q_scope.

Lemma exactb_Qeq (p q : Q) : p == q -> exactb p = exactb q.
Proof.
  intro H. unfold exactb. rewrite (round_Qeq H).
  destruct (round q) as [r| | |]; try reflexivity.
  destruct (Qeq_bool r q) eqn:E.
  - apply Qeq_bool_iff in E. apply Qeq_bool_iff. now rewrite H.
  - destruct (Qeq_bool r p) eqn:F; [|reflexivity].
    apply Qeq_bool_iff in F. rewrite H in F. apply Qeq_bool_iff in F.
    congruence.
Qed.

(** The sum that [reduce] builds from the left, when no addition rounds. *)
Lemma fold_left_add_exact (c : Point -> value) (f : Q * Q -> Q)
  (l : list (Q * Q)) :
  (forall q, ToNumber (c (real_point q)) = Fin (f q)) ->
  forall (n : num) (a : Q),
    holds n a -> exact_sumsb a (map f l) = true ->
    holds (fold_left (fun s p => (s + ToNumber (c p))%num) (real_points l) n)
          (fold_left Qplus (map f l) a).
Proof.
  intro C. induction l as [|q l IH]; intros n a H E; [exact H|].
  cbn [real_points map fold_left exact_sumsb] in *.
  apply andb_true_iff in E. destruct E as [E1 E2].
  apply IH; [|exact E2].
  rewrite C. apply holds_add; [exact H | apply holds_Fin | exact E1].
Qed.

(** [reduce] from the left adds up what the sum from the right adds up. *)
Lemma fold_left_Qplus (l : list Q) : forall a : Q,
  fold_left Qplus l a == a + fold_right Qplus 0 l.
Proof.
  induction l as [|q l IH]; intro a; cbn [fold_left fold_right].
  - lra.
  - rewrite IH. lra.
Qed.

Lemma count_pos (A : Type) (a : A) (l : list A) :
  0 < inject_Z (Z.of_nat (length (a :: l))).
Proof.
  change 0 with (inject_Z 0). rewrite <- Zlt_Qlt. cbn [length]. lia.
Qed.





(** The quotient of the sum by the count, when neither the additions nor
    the division round. *)
Lemma mean_exact (c : Point -> value) (f : Q * Q -> Q)
  (p : Q * Q) (l : list (Q * Q)) :
  (forall q, ToNumber (c (real_point q)) = Fin (f q)) ->
  exact_meanb (map f (p :: l)) = true ->
  holds (fold_left (fun s p => (s + ToNumber (c p))%num)
                   (real_points (p :: l)) zero
         / of_nat (length (real_points (p :: l))))%num
        (arithmetic_mean (map f (p :: l))).
Proof.
  intros C E. unfold exact_meanb in E.
  apply andb_true_iff in E. destruct E as [E1 E2].
  pose proof (@fold_left_add_exact c f (p :: l) C zero 0 (holds_Fin 0) E1) as S.
  pose proof (count_pos p l) as Hn.
  assert (M : fold_left Qplus (map f (p :: l)) 0
              / inject_Z (Z.of_nat (length (p :: l)))
              == arithmetic_mean (map f (p :: l))).
  { unfold arithmetic_mean. rewrite length_map, fold_left_Qplus, Qplus_0_l.
    reflexivity. }
  apply (holds_Qeq M).
  unfold real_points at 2. rewrite length_map.
  apply holds_div; [exact S | apply holds_Fin | lra |].
  now rewrite (exactb_Qeq M).
Qed.

Lemma label_x_exact (p : Q * Q) (l : list (Q * Q))
  (text : jsstring) (fontSize : num) :
  exact_meanb (map fst (p :: l)) = true ->
  exists cx : Q,
    x (position (findOptimalLabelPosition (real_points (p :: l)) text fontSize))
    = Number (Fin cx) /\
    cx == arithmetic_mean (map fst (p :: l)).
Proof.
  intro E.
  destruct (@mean_exact x fst p l (fun q => eq_refl) E) as (cx & H & Q).
  exists cx. split; [|exact Q].
  unfold findOptimalLabelPosition. cbn [position x]. now rewrite <- H.
Qed.

Lemma label_y_exact (p : Q * Q) (l : list (Q * Q))
  (text : jsstring) (fontSize : num) :
  exact_meanb (map snd (p :: l)) = true ->
  exists cy : Q,
    y (position (findOptimalLabelPosition (real_points (p :: l)) text fontSize))
    = Number (Fin cy) /\
    cy == arithmetic_mean (map snd (p :: l)).
Proof.
  intro E.
  destruct (@mean_exact y snd p l (fun q => eq_refl) E) as (cy & H & Q).
  exists cy. split; [|exact Q].
  unfold findOptimalLabelPosition. cbn [position y]. now rewrite <- H.
Qed.

(** C1, as the code has it: on a non-empty sequence of points with real
    coordinates each coordinate of the label position is the arithmetic
    mean of that coordinate of all the vertices, the sum of every point
    over the count, whenever no addition of the sum and not the division
    round; on the five points of the closed square ring, whose last vertex
    repeats the first, the position is (4, 4) and not (5, 5). *)
Theorem label_position_is_mean :
  (forall (p : Q * Q) (l : list (Q * Q)) (text : jsstring) (fontSize : num),
      (exact_meanb (map fst (p :: l)) = true ->
       exists cx : Q,
         x (position (findOptimalLabelPosition (real_points (p :: l))
                        text fontSize))
         = Number (Fin cx) /\
         cx == arithmetic_mean (map fst (p :: l))) /\
      (exact_meanb (map snd (p :: l)) = true ->
       exists cy : Q,
         y (position (findOptimalLabelPosition (real_points (p :: l))
                        text fontSize))
         = Number (Fin cy) /\
         cy == arithmetic_mean (map snd (p :: l)))) /\
  (forall (text : jsstring) (fontSize : num),
      exists cx cy : Q,
        length (parseWKTPolygon square_ring) = 5%nat /\
        position (findOptimalLabelPosition (parseWKTPolygon square_ring)
                    text fontSize)
        = real_point (cx, cy) /\
        (cx == 4 /\ cy == 4) /\ ~ cx == 5 /\ ~ cy == 5).
Proof.
  split.
  - intros p l text fontSize. split.
    + apply label_x_exact.
    + apply label_y_exact.
  - intros text fontSize. exists 4, 4.
    split; [vm_compute; reflexivity|].
    split; [unfold findOptimalLabelPosition; cbn [position]; vm_compute; reflexivity|].
    split; [split; reflexivity|].
    split; intro H; discriminate H.
Qed.

Lemma label_position_is_mean_witness :
  exact_meanb (map fst [(0, 0); (10, 0); (10, 10); (0, 10); (0, 0)]) = true /\
  exists cx : Q,
    x (position (findOptimalLabelPosition
                   (real_points [(0, 0); (10, 0); (10, 10); (0, 10); (0, 0)])
                   (str "RIVER") (of_Z 24)))
    = Number (Fin cx) /\
    cx == arithmetic_mean (map fst [(0, 0); (10, 0); (10, 10); (0, 10); (0, 0)]).
Proof.
  split; [vm_compute; reflexivity|].
  apply (proj1 label_position_is_mean (0, 0)
           [(10, 0); (10, 10); (0, 10); (0, 0)] (str "RIVER") (of_Z 24)).
  vm_compute. reflexivity.
Defined.

(** The input [POLYGON((0.1 0, 0.09999999999999999 1, 0.1 2))]: the x of
    the label position is the double [0.10000000000000002], which is not
    the mean of the three x. *)
Lemma label_position_rounded :
  map x (parseWKTPolygon ring_rounding)
  = [Number (literal "0.1"); Number (literal "0.09999999999999999");
     Number (literal "0.1")] /\
  x (position (findOptimalLabelPosition (parseWKTPolygon ring_rounding)
                 (str "RIVER") (of_Z 24)))
  = Number (literal "0.10000000000000002") /\
  exists a b c : Q,
    literal "0.1" = Fin a /\ literal "0.09999999999999999" = Fin b /\
    literal "0.10000000000000002" = Fin c /\
    ~ c == arithmetic_mean [a; b; a].
Proof.
  split; [vm_compute; reflexivity|].
  split; [vm_compute; reflexivity|].
  eexists; eexists; eexists.
  split; [vm_compute; reflexivity|].
  split; [vm_compute; reflexivity|].
  split; [vm_compute; reflexivity|].
  intro H. vm_compute in H. discriminate H.
Qed.




(** C2: whatever the points, the text and the font size, the result has
    rotation 0, is reported inside, keeps the font size, and has a text box
    of [fontSize * 6] by [fontSize]; these fields do not depend on the
    points. *)
Theorem label_fixed_fields (points : list Point) (text : jsstring)
  (fontSize : num) :
  rotation (findOptimalLabelPosition points text fontSize) = of_Z 0 /\
  isInside (findOptimalLabelPosition points text fontSize) = true /\
  actualFontSize (findOptimalLabelPosition points text fontSize) = fontSize /\
  textWidth (findOptimalLabelPosition points text fontSize)
  = (fontSize * of_Z 6)%num /\
  textHeight (findOptimalLabelPosition points text fontSize) = fontSize /\
  (forall (points' : list Point) (text' : jsstring),
      isInside (findOptimalLabelPosition points' text' fontSize)
      = isInside (findOptimalLabelPosition points text fontSize)).
Proof. repeat split. Qed.

Lemma add_NaN_r (m : num) : (m + NaN)%num = NaN.
Proof. now destruct m. Qed.

Lemma fold_add_NaN (c : Point -> value) (l : list Point) :
  fold_left (fun s p => (s + ToNumber (c p))%num) l NaN = NaN.
Proof. induction l as [|p l IH]; [reflexivity | exact IH]. Qed.

(** One NaN among the terms makes the sum NaN, wherever it stands. *)
Lemma fold_add_In_NaN (c : Point -> value) (l : list Point) (p : Point) :
  In p l -> ToNumber (c p) = NaN ->
  forall a : num, fold_left (fun s p => (s + ToNumber (c p))%num) l a = NaN.
Proof.
  induction l as [|q l IH]; intros H N a; [destruct H|].
  cbn [fold_left]. destruct H as [H|H].
  - subst q. rewrite N, add_NaN_r. apply fold_add_NaN.
  - now apply IH.
Qed.

(** X6: one point whose coordinate along an axis coerces to NaN, be it a
    malformed token or a missing one, makes the label position NaN along
    that axis, whatever the other points are. *)
Theorem label_position_NaN (a : axis) (pts : list Point) (p : Point)
  (text : jsstring) (fontSize : num) :
  In p pts -> ToNumber (coordinate a p) = NaN ->
  coordinate a (position (findOptimalLabelPosition pts text fontSize))
  = Number NaN.
Proof.
  intros H N. unfold findOptimalLabelPosition. cbn [position].
  destruct a; cbn [coordinate x y] in *.
  - now rewrite (@fold_add_In_NaN x pts p H N).
  - now rewrite (@fold_add_In_NaN y pts p H N).
Qed.

Lemma label_position_NaN_witness :
  x (position (findOptimalLabelPosition (parseWKTPolygon malformed_ring)
                 (str "RIVER") (of_Z 24)))
  = Number NaN.
Proof.
  apply (@label_position_NaN AxisX (parseWKTPolygon malformed_ring)
           {| x := Number NaN; y := Number (Fin 0) |}).
  - vm_compute. left. reflexivity.
  - reflexivity.
Defined.

End LabelFacts.

(** ** The viewport projection *)

Section ProjectionFacts.

Local Open Scope Q_scope.








(** X10: for a transform with finite offsets and a finite scale that is
    not negative, the projection keeps the order of x and reverses the
    order of y, whatever it rounds: of two points, the one with the
    lesser x is not drawn to the right of the other, and the one with the
    lesser y is not drawn above the other.  Two points may be drawn at the
    same place, but they are never swapped. *)
Theorem toSVG_order (t : Transform) (s ox oy px1 py1 px2 py2 : Q) :
  scale t = Fin s -> offsetX t = Fin ox -> offsetY t = Fin oy -> 0 <= s ->
  (px1 <= px2 ->
   num_le (ToNumber (x (toSVG t (real_point (px1, py1)))))
          (ToNumber (x (toSVG t (real_point (px2, py2)))))) /\
  (py1 <= py2 ->
   num_le (ToNumber (y (toSVG t (real_point (px2, py2)))))
          (ToNumber (y (toSVG t (real_point (px1, py1)))))).
Proof.
  intros Es Ex Ey S. unfold toSVG, real_point. cbn [x y ToNumber fst snd].
  rewrite Es, Ex, Ey. unfold svgHeight, of_Z. split; intro H.
  - apply add_mono. now apply mul_mono.
  - apply sub_antitone, add_mono. now apply mul_mono.
Qed.

Lemma toSVG_order_witness :
  num_le (ToNumber (x (toSVG (transform (Some square_river))
                         (real_point (0, 0)))))
         (ToNumber (x (toSVG (transform (Some square_river))
                         (real_point (10, 10))))) /\
  num_le (ToNumber (y (toSVG (transform (Some square_river))
                         (real_point (10, 10)))))
         (ToNumber (y (toSVG (transform (Some square_river))
                         (real_point (0, 0))))).
Proof.
  destruct (@toSVG_order (transform (Some square_river)) 44 180 80 0 0 10 10)
    as [Hx Hy].
  - vm_compute. reflexivity.
  - vm_compute. reflexivity.
  - vm_compute. reflexivity.
  - vm_compute. discriminate.
  - split; [apply Hx | apply Hy]; vm_compute; discriminate.
Defined.









Lemma mul_NaN_r (m : num) : (m * NaN)%num = NaN.
Proof. now destruct m. Qed.

Lemma div_NaN_r (m : num) : (m / NaN)%num = NaN.
Proof. now destruct m. Qed.

Lemma min_step_NaN_r (m : num) : min_step m NaN = NaN.
Proof. now destruct m. Qed.

Lemma max_step_NaN_r (m : num) : max_step m NaN = NaN.
Proof. now destruct m. Qed.

(** X11: a river whose bounds have NaN for width or for height, as one
    stored with a malformed coordinate has, gets NaN for scale and for both
    offsets, and every point, whatever its coordinates, is projected to
    (NaN, NaN). *)
Theorem transform_NaN (rd : RiverData) :
  width (bounds rd) = NaN \/ height (bounds rd) = NaN ->
  transform (Some rd) = {| scale := NaN; offsetX := NaN; offsetY := NaN |} /\
  (forall p : Point,
      toSVG (transform (Some rd)) p = {| x := Number NaN; y := Number NaN |}).
Proof.
  intro H.
  assert (S : Math_min
                [Number ((svgWidth - margin * of_Z 2) / width (bounds rd))%num;
                 Number ((svgHeight - margin * of_Z 2) / height (bounds rd))%num]
              = NaN).
  { unfold Math_min. cbn [map ToNumber fold_left].
    destruct H as [H|H]; rewrite H, div_NaN_r.
    - reflexivity.
    - apply min_step_NaN_r. }
  assert (T : transform (Some rd)
              = {| scale := NaN; offsetX := NaN; offsetY := NaN |}).
  { unfold transform. rewrite S, !mul_NaN_r.
    unfold sub. cbn [neg]. rewrite !add_NaN_r. reflexivity. }
  split; [exact T|].
  intro p. rewrite T. unfold toSVG. cbn [scale offsetX offsetY].
  rewrite !mul_NaN_r. unfold sub. cbn [neg]. rewrite !add_NaN_r.
  reflexivity.
Qed.

Lemma transform_NaN_witness :
  toSVG (transform (Some malformed_river))
        {| x := Number (Fin 1); y := Number (Fin 1) |}
  = {| x := Number NaN; y := Number NaN |}.
Proof.
  apply (@transform_NaN malformed_river).
  left. vm_compute. reflexivity.
Defined.

End ProjectionFacts.

(** ** The numbers that [Number] returns *)

Section LiteralFacts.

Lemma parse_unsigned_decimal_double (s : jsstring) (n : num) :
  parse_unsigned_decimal s = Some n -> double_num n.
Proof.
  unfold parse_unsigned_decimal. intro H.
  destruct (jsstring_eqb s (str "Infinity")).
  - injection H as <-. exact I.
  - destruct (span is_digit s) as [ip r1].
    match type of H with
    | context [let '(fp, r2) := ?m in _] => destruct m as [fp r2]
    end.
    destruct (is_nil ip && is_nil fp); [discriminate H|].
    destruct (parse_exponent r2); [|discriminate H].
    injection H as <-. apply double_num_round.
Qed.

Lemma parse_decimal_double (s : jsstring) (n : num) :
  parse_decimal s = Some n -> double_num n.
Proof.
  assert (N : forall r, option_map neg (parse_unsigned_decimal r) = Some n ->
                        double_num n).
  { intros r H. destruct (parse_unsigned_decimal r) as [m|] eqn:E;
      [|discriminate H].
    injection H as <-. apply double_num_neg.
    exact (parse_unsigned_decimal_double _ E). }
  unfold parse_decimal. intro H.
  destruct s as [|c r]; [exact (parse_unsigned_decimal_double _ H)|].
  destruct c as [|pc]; [exact (parse_unsigned_decimal_double _ H)|].
  repeat (destruct pc as [pc|pc|];
          try exact (parse_unsigned_decimal_double _ H);
          try exact (N _ H)).
Qed.

Lemma parse_non_decimal_double (s : jsstring) (n : num) :
  parse_non_decimal s = Some n -> double_num n.
Proof.
  unfold parse_non_decimal. intro H.
  destruct s as [|c [|p ds]]; try discriminate H.
  - destruct c as [|pc]; [discriminate H|].
    repeat (destruct pc as [pc|pc|]; try discriminate H).
  - cbv beta zeta in H.
    assert (L : forall (base : Z) (ok : code_unit -> bool),
               (if negb (is_nil ds) && forallb ok ds
                then Some (round (inject_Z (digits_value base ds)))
                else None) = Some n -> double_num n).
    { intros base ok L. destruct (negb (is_nil ds) && forallb ok ds);
        [|discriminate L].
      injection L as <-. apply double_num_round. }
    destruct c as [|pc]; [discriminate H|].
    repeat (destruct pc as [pc|pc|]; try discriminate H).
    destruct ((p =? 120)%N || (p =? 88)%N); [exact (L _ _ H)|].
    destruct ((p =? 111)%N || (p =? 79)%N); [exact (L _ _ H)|].
    destruct ((p =? 98)%N || (p =? 66)%N); [exact (L _ _ H)|].
    discriminate H.
Qed.

(** Every number that [Number] returns is NaN, an infinity, or the value
    of a double. *)
Lemma StringToNumber_double (s : jsstring) : double_num (StringToNumber s).
Proof.
  unfold StringToNumber.
  destruct (is_nil (trim s)); [reflexivity|].
  destruct (parse_non_decimal (trim s)) as [n|] eqn:E;
    [exact (parse_non_decimal_double _ E)|].
  destruct (parse_decimal (trim s)) as [n|] eqn:F;
    [exact (parse_decimal_double _ F) | exact I].
Qed.

(** Some values of literals and of a sum, as binary64 has them. *)
Lemma binary64_examples :
  literal "0.1" = Fin (3602879701896397 # 36028797018963968) /\
  literal "0.10000000000000001" = literal "0.1" /\
  (literal "0.1" + literal "0.2")%num = literal "0.30000000000000004" /\
  literal "9007199254740993" = Fin 9007199254740992 /\
  literal "1e400" = PInf /\
  literal "-1e400" = NInf /\
  literal "1e-400" = Fin 0 /\
  literal "0x1F" = Fin 31 /\
  literal "12px" = NaN.
Proof.
  split; [vm_compute; reflexivity|].
  split; [vm_compute; reflexivity|].
  split; [vm_compute; reflexivity|].
  split; [vm_compute; reflexivity|].
  split; [vm_compute; reflexivity|].
  split; [vm_compute; reflexivity|].
  split; [vm_compute; reflexivity|].
  split; vm_compute; reflexivity.
Qed.

End LiteralFacts.

(** ** The outcomes of [processWKT] *)

Section ProcessFacts.

Variables (max_arguments : nat) (wkt sourceName : jsstring).

Lemma callback_too_few (st : AppState) :
  (length (parseWKTPolygon wkt) < 3)%nat ->
  processWKT_callback max_arguments wkt sourceName st
  = mkAppState None (labelResult st) (text st) (wktInput st) (fontSize st)
      false (Some msg_invalid_wkt) (showSafety st).
Proof.
  intro H. unfold processWKT_callback, processWKT_try, bind.
  destruct (Nat.leb_spec 3 (length (parseWKTPolygon wkt))) as [L|L]; [lia|].
  reflexivity.
Qed.

Lemma callback_thrown (st : AppState) :
  (3 <= length (parseWKTPolygon wkt))%nat ->
  (max_arguments < length (parseWKTPolygon wkt))%nat ->
  processWKT_try max_arguments wkt sourceName st = Throw RangeError /\
  processWKT_callback max_arguments wkt sourceName st
  = mkAppState None (labelResult st) (text st) (wktInput st) (fontSize st)
      false (Some msg_parse_failed) (showSafety st).
Proof.
  intros H M. unfold processWKT_callback, processWKT_try, call_getBounds, bind.
  destruct (Nat.leb_spec 3 (length (parseWKTPolygon wkt))) as [L|L]; [|lia].
  destruct (Nat.leb_spec (length (parseWKTPolygon wkt)) max_arguments) as [K|K];
    [lia|].
  split; reflexivity.
Qed.

Lemma callback_degenerate (st : AppState) :
  (3 <= length (parseWKTPolygon wkt) <= max_arguments)%nat ->
  (width (getBounds (parseWKTPolygon wkt)) === of_Z 0)%num
  || (height (getBounds (parseWKTPolygon wkt)) === of_Z 0)%num = true ->
  processWKT_callback max_arguments wkt sourceName st
  = mkAppState None (labelResult st) (text st) (wktInput st) (fontSize st)
      false (Some msg_zero_area) (showSafety st).
Proof.
  intros [H M] D.
  unfold processWKT_callback, processWKT_try, call_getBounds, bind.
  destruct (Nat.leb_spec 3 (length (parseWKTPolygon wkt))) as [L|L]; [|lia].
  destruct (Nat.leb_spec (length (parseWKTPolygon wkt)) max_arguments) as [K|K];
    [|lia].
  rewrite D. reflexivity.
Qed.

Lemma callback_accepted (st : AppState) :
  (3 <= length (parseWKTPolygon wkt) <= max_arguments)%nat ->
  (width (getBounds (parseWKTPolygon wkt)) === of_Z 0)%num
  || (height (getBounds (parseWKTPolygon wkt)) === of_Z 0)%num = false ->
  processWKT_callback max_arguments wkt sourceName st
  = mkAppState
      (Some {| name := sourceName;
               points := parseWKTPolygon wkt;
               bounds := getBounds (parseWKTPolygon wkt) |})
      (labelResult st) (text st) (wktInput st) (fontSize st)
      false (error st) (showSafety st).
Proof.
  intros [H M] D.
  unfold processWKT_callback, processWKT_try, call_getBounds, bind.
  destruct (Nat.leb_spec 3 (length (parseWKTPolygon wkt))) as [L|L]; [|lia].
  destruct (Nat.leb_spec (length (parseWKTPolygon wkt)) max_arguments) as [K|K];
    [|lia].
  rewrite D. reflexivity.
Qed.


(** The state that the callback leaves, in each of its four cases. *)
Lemma callback_cases (st : AppState) :
  ((length (parseWKTPolygon wkt) < 3)%nat /\
   processWKT_callback max_arguments wkt sourceName st
   = mkAppState None (labelResult st) (text st) (wktInput st) (fontSize st)
       false (Some msg_invalid_wkt) (showSafety st)) \/
  ((3 <= length (parseWKTPolygon wkt))%nat /\
   (max_arguments < length (parseWKTPolygon wkt))%nat /\
   processWKT_callback max_arguments wkt sourceName st
   = mkAppState None (labelResult st) (text st) (wktInput st) (fontSize st)
       false (Some msg_parse_failed) (showSafety st)) \/
  ((3 <= length (parseWKTPolygon wkt) <= max_arguments)%nat /\
   (width (getBounds (parseWKTPolygon wkt)) === of_Z 0)%num
   || (height (getBounds (parseWKTPolygon wkt)) === of_Z 0)%num = true /\
   processWKT_callback max_arguments wkt sourceName st
   = mkAppState None (labelResult st) (text st) (wktInput st) (fontSize st)
       false (Some msg_zero_area) (showSafety st)) \/
  ((3 <= length (parseWKTPolygon wkt) <= max_arguments)%nat /\
   (width (getBounds (parseWKTPolygon wkt)) === of_Z 0)%num
   || (height (getBounds (parseWKTPolygon wkt)) === of_Z 0)%num = false /\
   processWKT_callback max_arguments wkt sourceName st
   = mkAppState
       (Some {| name := sourceName;
                points := parseWKTPolygon wkt;
                bounds := getBounds (parseWKTPolygon wkt) |})
       (labelResult st) (text st) (wktInput st) (fontSize st)
       false (error st) (showSafety st)).
Proof.
  destruct (Nat.leb_spec 3 (length (parseWKTPolygon wkt))) as [L|L].
  - destruct (Nat.leb_spec (length (parseWKTPolygon wkt)) max_arguments)
      as [K|K].
    + destruct ((width (getBounds (parseWKTPolygon wkt)) === of_Z 0)%num
                || (height (getBounds (parseWKTPolygon wkt)) === of_Z 0)%num)
        eqn:D.
      * right; right; left. split; [lia|]. split; [reflexivity|].
        apply callback_degenerate; [lia | exact D].
      * right; right; right. split; [lia|]. split; [reflexivity|].
        apply callback_accepted; [lia | exact D].
    + right; left. split; [exact L|]. split; [exact K|].
      now apply callback_thrown.
  - left. split; [exact L|]. now apply callback_too_few.
Qed.

End ProcessFacts.

Lemma msg_zero_area_other :
  Some msg_zero_area <> Some msg_invalid_wkt /\
  Some msg_zero_area <> Some msg_parse_failed /\
  Some msg_invalid_wkt <> Some msg_parse_failed.
Proof. repeat split; intro H; vm_compute in H; discriminate H. Qed.

(** C9: an input that parses to fewer than three points makes the
    callback of [processWKT], whatever the state when the timer fires,
    leave the error of the invalid format and no river, so that the effect
    computes no label; with nothing run in between, no label is left. *)
Theorem too_few_points_rejected (max_arguments : nat) (wkt : jsstring)
  (sourceName : option jsstring) (st : AppState) :
  (length (parseWKTPolygon wkt) < 3)%nat ->
  (forall st' : AppState,
      error (snd (processWKT max_arguments wkt sourceName st) st')
      = Some msg_invalid_wkt /\
      riverData (snd (processWKT max_arguments wkt sourceName st) st') = None /\
      useEffect_label (snd (processWKT max_arguments wkt sourceName st) st')
      = snd (processWKT max_arguments wkt sourceName st) st') /\
  (error (processWKT_undisturbed max_arguments wkt sourceName st)
   = Some msg_invalid_wkt /\
   riverData (processWKT_undisturbed max_arguments wkt sourceName st) = None /\
   labelResult
     (useEffect_label (processWKT_undisturbed max_arguments wkt sourceName st))
   = None).
Proof.
  intro H. unfold processWKT_undisturbed. cbn [processWKT fst snd].
  split.
  - intro st'. rewrite (@callback_too_few max_arguments wkt _ st' H).
    repeat split.
  - rewrite (@callback_too_few max_arguments wkt _ (processWKT_begin st) H).
    repeat split.
Qed.

Lemma too_few_points_rejected_witness :
  (length (parseWKTPolygon (str "POLYGON((0 0, 1 1))")) < 3)%nat /\
  error (processWKT_undisturbed sample_max_arguments
           (str "POLYGON((0 0, 1 1))") None initialState)
  = Some msg_invalid_wkt /\
  riverData (processWKT_undisturbed sample_max_arguments
               (str "POLYGON((0 0, 1 1))") None initialState) = None /\
  labelResult
    (useEffect_label
       (processWKT_undisturbed sample_max_arguments
          (str "POLYGON((0 0, 1 1))") None initialState))
  = None.
Proof.
  split; [vm_compute; lia|].
  apply (too_few_points_rejected sample_max_arguments
           (str "POLYGON((0 0, 1 1))") None initialState).
  vm_compute; lia.
Defined.

(** ** Degenerate and malformed inputs *)

Section DegenerateFacts.

Local Open Scope Q_scope.

Lemma fold_min_NaN (l : list num) : fold_left min_step l NaN = NaN.
Proof. induction l as [|n l IH]; [reflexivity | exact IH]. Qed.

Lemma fold_max_NaN (l : list num) : fold_left max_step l NaN = NaN.
Proof. induction l as [|n l IH]; [reflexivity | exact IH]. Qed.

(** NaN among the arguments is the result, wherever it stands. *)
Lemma fold_min_In_NaN (l : list num) :
  In NaN l -> forall a : num, fold_left min_step l a = NaN.
Proof.
  induction l as [|n l IH]; intros H a; [destruct H|].
  cbn [fold_left]. destruct H as [H|H].
  - subst n. rewrite min_step_NaN_r. apply fold_min_NaN.
  - now apply IH.
Qed.

Lemma fold_max_In_NaN (l : list num) :
  In NaN l -> forall a : num, fold_left max_step l a = NaN.
Proof.
  induction l as [|n l IH]; intros H a; [destruct H|].
  cbn [fold_left]. destruct H as [H|H].
  - subst n. rewrite max_step_NaN_r. apply fold_max_NaN.
  - now apply IH.
Qed.

(** A coordinate that coerces to NaN makes the bounds along its axis NaN. *)
Lemma getBounds_NaN (a : axis) (pts : list Point) (p : Point) :
  In p pts -> ToNumber (coordinate a p) = NaN ->
  lower a (getBounds pts) = NaN /\
  upper a (getBounds pts) = NaN /\
  extent a (getBounds pts) = NaN.
Proof.
  intros Hin Hnan.
  assert (I : In NaN (map ToNumber (map (coordinate a) pts))).
  { rewrite <- Hnan. apply in_map, in_map, Hin. }
  destruct a; cbn [lower upper extent coordinate] in *;
    unfold getBounds; cbn [minX maxX minY maxY width height];
    unfold Math_min, Math_max;
    rewrite (fold_min_In_NaN _ I), (fold_max_In_NaN _ I); repeat split.
Qed.

Lemma destructure_map (k : nat) (toks : list jsstring) (t : jsstring) :
  nth_error toks k = Some t ->
  destructure k (map StringToNumber toks) = Number (StringToNumber t).
Proof.
  intro H. unfold destructure. now rewrite (map_nth_error StringToNumber _ _ H).
Qed.

(** The point made of the fragment at an index. *)
Lemma parseWKTPolygon_nth (wkt : jsstring) (i : nat) (fragment : jsstring) :
  nth_error (fragments wkt) i = Some fragment ->
  nth_error (parseWKTPolygon wkt) i
  = Some {| x := destructure 0 (map StringToNumber (tokens fragment));
            y := destructure 1 (map StringToNumber (tokens fragment)) |}.
Proof.
  intro H. unfold parseWKTPolygon.
  exact (map_nth_error _ _ _ H).
Qed.

(** What is read out of the array of a fragment is a double, if it is a
    finite number. *)
Lemma destructure_double (k : nat) (toks : list jsstring) (q : Q) :
  destructure k (map StringToNumber toks) = Number (Fin q) -> exactb q = true.
Proof.
  unfold destructure. rewrite nth_error_map.
  destruct (nth_error toks k) as [t|]; cbn [option_map]; [|discriminate].
  intro H. injection H as H.
  pose proof (StringToNumber_double t) as G. now rewrite H in G.
Qed.

(** The finite coordinates of parsed points are doubles. *)
Lemma parse_real_doubles (wkt : jsstring) (l : list (Q * Q)) :
  parseWKTPolygon wkt = real_points l -> doubles l = true.
Proof.
  intro P. unfold doubles. apply forallb_forall. intros q Hq.
  assert (I : In (real_point q) (parseWKTPolygon wkt))
    by (rewrite P; apply in_map, Hq).
  unfold parseWKTPolygon in I. apply in_map_iff in I.
  destruct I as (fragment & E & _).
  unfold real_point in E. injection E as Ex Ey.
  apply andb_true_iff. split; eapply destructure_double; eassumption.
Qed.

End DegenerateFacts.




(** C7, as the code has it: a token in the first or second place of a
    fragment, among at least three fragments, that [Number] turns into NaN
    gives a point with NaN for that coordinate; the minimum, the maximum and
    the extent of the bounds along that axis are NaN.  When the fragments
    are no more than a call takes as arguments, the callback of
    [processWKT] either leaves the error of the zero area or height and no
    river, or stores the river and leaves the error as it finds it, and it
    stores the river as soon as the extent along the other axis is not
    zero; with nothing run in between, the error left is neither the one of
    the invalid format nor the one of the [catch] arm, and none at all when
    the river is stored. *)
Theorem malformed_token_accepted (max_arguments : nat) (wkt : jsstring)
  (sourceName : option jsstring) (st : AppState)
  (i : nat) (fragment token : jsstring) (a : axis) :
  (3 <= length (fragments wkt))%nat ->
  nth_error (fragments wkt) i = Some fragment ->
  nth_error (tokens fragment) (token_index a) = Some token ->
  StringToNumber token = NaN ->
  (exists p : Point,
      nth_error (parseWKTPolygon wkt) i = Some p /\
      coordinate a p = Number NaN) /\
  (lower a (getBounds (parseWKTPolygon wkt)) = NaN /\
   upper a (getBounds (parseWKTPolygon wkt)) = NaN /\
   extent a (getBounds (parseWKTPolygon wkt)) = NaN) /\
  ((length (fragments wkt) <= max_arguments)%nat ->
   (forall st' : AppState,
       (error (snd (processWKT max_arguments wkt sourceName st) st')
        = Some msg_zero_area /\
        riverData (snd (processWKT max_arguments wkt sourceName st) st') = None)
       \/
       (error (snd (processWKT max_arguments wkt sourceName st) st') = error st' /\
        riverData (snd (processWKT max_arguments wkt sourceName st) st')
        = Some {| name := default_argument sourceName default_sourceName;
                  points := parseWKTPolygon wkt;
                  bounds := getBounds (parseWKTPolygon wkt) |})) /\
   (error (processWKT_undisturbed max_arguments wkt sourceName st)
    <> Some msg_invalid_wkt /\
    error (processWKT_undisturbed max_arguments wkt sourceName st)
    <> Some msg_parse_failed) /\
   ((extent (other a) (getBounds (parseWKTPolygon wkt)) === of_Z 0)%num = false ->
    (forall st' : AppState,
        error (snd (processWKT max_arguments wkt sourceName st) st') = error st' /\
        riverData (snd (processWKT max_arguments wkt sourceName st) st')
        = Some {| name := default_argument sourceName default_sourceName;
                  points := parseWKTPolygon wkt;
                  bounds := getBounds (parseWKTPolygon wkt) |}) /\
    error (processWKT_undisturbed max_arguments wkt sourceName st) = None /\
    riverData (processWKT_undisturbed max_arguments wkt sourceName st)
    = Some {| name := default_argument sourceName default_sourceName;
              points := parseWKTPolygon wkt;
              bounds := getBounds (parseWKTPolygon wkt) |})).
Proof.
  intros L Hf Ht Hn.
  pose proof (parseWKTPolygon_nth wkt i Hf) as Hp.
  set (p := {| x := destructure 0 (map StringToNumber (tokens fragment));
               y := destructure 1 (map StringToNumber (tokens fragment)) |}) in Hp.
  assert (Hc : coordinate a p = Number NaN).
  { destruct a; cbn [coordinate token_index x y p] in *;
      rewrite (destructure_map _ _ Ht), Hn; reflexivity. }
  assert (Hb : lower a (getBounds (parseWKTPolygon wkt)) = NaN /\
               upper a (getBounds (parseWKTPolygon wkt)) = NaN /\
               extent a (getBounds (parseWKTPolygon wkt)) = NaN).
  { apply getBounds_NaN with p.
    - eapply nth_error_In, Hp.
    - now rewrite Hc. }
  assert (Lp : length (parseWKTPolygon wkt) = length (fragments wkt))
    by (unfold parseWKTPolygon, fragments; apply length_map).
  split; [exists p; split; [exact Hp | exact Hc]|].
  split; [exact Hb|].
  destruct Hb as (_ & _ & Hext).
  intro M.
  assert (L' : (3 <= length (parseWKTPolygon wkt) <= max_arguments)%nat) by lia.
  destruct msg_zero_area_other as (Z1 & Z2 & _).
  unfold processWKT_undisturbed. cbn [processWKT fst snd].
  set (nm := default_argument sourceName default_sourceName).
  destruct ((width (getBounds (parseWKTPolygon wkt)) === of_Z 0)%num
            || (height (getBounds (parseWKTPolygon wkt)) === of_Z 0)%num) eqn:D.
  - split; [intro st'; left;
            rewrite (@callback_degenerate max_arguments wkt nm st' L' D);
            split; reflexivity|].
    rewrite (@callback_degenerate max_arguments wkt nm (processWKT_begin st) L' D).
    split; [split; assumption|].
    intro Ho. exfalso.
    destruct a; cbn [extent other] in Hext, Ho; rewrite Hext, Ho in D;
      discriminate D.
  - split; [intro st'; right;
            rewrite (@callback_accepted max_arguments wkt nm st' L' D);
            split; reflexivity|].
    rewrite (@callback_accepted max_arguments wkt nm (processWKT_begin st) L' D).
    split; [split; discriminate|].
    intros _.
    split; [intro st';
            rewrite (@callback_accepted max_arguments wkt nm st' L' D);
            split; reflexivity|].
    split; reflexivity.
Qed.

Lemma malformed_token_accepted_witness :
  error (processWKT_undisturbed sample_max_arguments malformed_ring None
           initialState) = None /\
  riverData (processWKT_undisturbed sample_max_arguments malformed_ring None
               initialState)
  = Some {| name := default_sourceName;
            points := parseWKTPolygon malformed_ring;
            bounds := getBounds (parseWKTPolygon malformed_ring) |} /\
  width (getBounds (parseWKTPolygon malformed_ring)) = NaN.
Proof.
  destruct (@malformed_token_accepted sample_max_arguments malformed_ring None
              initialState 0%nat (str "abc 0") (str "abc") AxisX)
    as (_ & (_ & _ & W) & R).
  - vm_compute. lia.
  - vm_compute. reflexivity.
  - vm_compute. reflexivity.
  - vm_compute. reflexivity.
  - destruct R as (_ & _ & R).
    { replace (length (fragments malformed_ring)) with 3%nat
        by (vm_compute; reflexivity).
      unfold sample_max_arguments. lia. }
    destruct R as (_ & E & D); [vm_compute; reflexivity|].
    split; [exact E|]. split; [exact D | exact W].
Defined.

(** The malformed token [abc] stands first among three fragments, and the
    error of the zero area or height is left: no river is stored. *)
Lemma malformed_token_rejected_when_flat :
  length (fragments malformed_flat_ring) = 3%nat /\
  nth_error (fragments malformed_flat_ring) 0 = Some (str "abc 0") /\
  nth_error (tokens (str "abc 0")) 0 = Some (str "abc") /\
  StringToNumber (str "abc") = NaN /\
  width (getBounds (parseWKTPolygon malformed_flat_ring)) = NaN /\
  error (processWKT_undisturbed sample_max_arguments malformed_flat_ring None
           initialState) = Some msg_zero_area /\
  riverData (processWKT_undisturbed sample_max_arguments malformed_flat_ring
               None initialState) = None.
Proof.
  split; [vm_compute; reflexivity|].
  split; [vm_compute; reflexivity|].
  split; [vm_compute; reflexivity|].
  split; [vm_compute; reflexivity|].
  split; [vm_compute; reflexivity|].
  split; vm_compute; reflexivity.
Qed.

(** ** What [processWKT] leaves in the state *)

Section MoreProcessFacts.

(** X3: [processWKT] at once turns the spinner on and clears the error and
    the label; the river, the text, the text area, the font size and the
    safety toggle stay.  Its callback, whatever the state when the timer
    fires, turns the spinner off and leaves the label and those four
    fields as it finds them; it either clears the river and leaves one of
    its three errors, or stores a river and leaves the error as it finds
    it.  A river it stores carries the given name, all the parsed points,
    at least three of them and no more than a call takes as arguments,
    their bounds as [getBounds] computes them, and neither a width nor a
    height that is [=== 0].  With nothing run in between, no label is left
    and either an error or a river, never both and never neither. *)
Theorem processWKT_invariants (max_arguments : nat) (wkt : jsstring)
  (sourceName : option jsstring) (st : AppState) :
  (isProcessing (fst (processWKT max_arguments wkt sourceName st)) = true /\
   error (fst (processWKT max_arguments wkt sourceName st)) = None /\
   labelResult (fst (processWKT max_arguments wkt sourceName st)) = None /\
   riverData (fst (processWKT max_arguments wkt sourceName st)) = riverData st /\
   same_inputs st (fst (processWKT max_arguments wkt sourceName st))) /\
  (forall st' : AppState,
      isProcessing (snd (processWKT max_arguments wkt sourceName st) st') = false /\
      labelResult (snd (processWKT max_arguments wkt sourceName st) st')
      = labelResult st' /\
      same_inputs st' (snd (processWKT max_arguments wkt sourceName st) st') /\
      (riverData (snd (processWKT max_arguments wkt sourceName st) st') = None ->
       In (error (snd (processWKT max_arguments wkt sourceName st) st'))
          [Some msg_invalid_wkt; Some msg_zero_area; Some msg_parse_failed]) /\
      (riverData (snd (processWKT max_arguments wkt sourceName st) st') <> None ->
       error (snd (processWKT max_arguments wkt sourceName st) st') = error st') /\
      (forall rd : RiverData,
          riverData (snd (processWKT max_arguments wkt sourceName st) st')
          = Some rd ->
          name rd = default_argument sourceName default_sourceName /\
          points rd = parseWKTPolygon wkt /\
          (3 <= length (points rd) <= max_arguments)%nat /\
          bounds rd = getBounds (points rd) /\
          (width (bounds rd) === of_Z 0)%num = false /\
          (height (bounds rd) === of_Z 0)%num = false)) /\
  (labelResult (processWKT_undisturbed max_arguments wkt sourceName st) = None /\
   (error (processWKT_undisturbed max_arguments wkt sourceName st) = None
    <-> riverData (processWKT_undisturbed max_arguments wkt sourceName st)
        <> None)).
Proof.
  unfold processWKT_undisturbed. cbn [processWKT fst snd].
  set (nm := default_argument sourceName default_sourceName).
  split; [repeat split|].
  split.
  - intro st'.
    destruct (callback_cases max_arguments wkt nm st')
      as [(L & E)|[(L & M & E)|[(L & D & E)|(L & D & E)]]]; rewrite E;
      cbn [isProcessing labelResult error riverData].
    + split; [reflexivity|]. split; [reflexivity|]. split; [repeat split|].
      split; [intros _; left; reflexivity|].
      split; [intro N; now elim N|]. intros rd R. discriminate R.
    + split; [reflexivity|]. split; [reflexivity|]. split; [repeat split|].
      split; [intros _; right; right; left; reflexivity|].
      split; [intro N; now elim N|]. intros rd R. discriminate R.
    + split; [reflexivity|]. split; [reflexivity|]. split; [repeat split|].
      split; [intros _; right; left; reflexivity|].
      split; [intro N; now elim N|]. intros rd R. discriminate R.
    + apply orb_false_iff in D. destruct D as [Dw Dh].
      split; [reflexivity|]. split; [reflexivity|]. split; [repeat split|].
      split; [intro R; discriminate R|].
      split; [reflexivity|].
      intros rd R. injection R as <-. cbn [name points bounds].
      repeat split; try assumption; lia.
  - destruct (callback_cases max_arguments wkt nm (processWKT_begin st))
      as [(L & E)|[(L & M & E)|[(L & D & E)|(L & D & E)]]]; rewrite E;
      cbn [labelResult error riverData processWKT_begin setLabelResult
           setError setIsProcessing];
      (split; [reflexivity|]);
      (split; [try discriminate; try reflexivity | try discriminate]);
      try (intro N; now elim N); reflexivity.
Qed.

(** X5: when the input parses to at least three points, no more than a
    call takes as arguments, with finite coordinates, the callback of
    [processWKT] stores the river exactly when the points do not all share
    their x and do not all share their y, whatever the state when the timer
    fires; with nothing run in between, that is also when no error is
    left. *)
Theorem processWKT_accepts_iff (max_arguments : nat) (wkt : jsstring)
  (sourceName : option jsstring) (st : AppState) (l : list (Q * Q)) :
  parseWKTPolygon wkt = real_points l ->
  (3 <= length l <= max_arguments)%nat ->
  (forall st' : AppState,
      riverData (snd (processWKT max_arguments wkt sourceName st) st')
      = Some {| name := default_argument sourceName default_sourceName;
                points := real_points l;
                bounds := getBounds (real_points l) |}
      <-> ~ collinear AxisX l /\ ~ collinear AxisY l) /\
  (error (processWKT_undisturbed max_arguments wkt sourceName st) = None
   <-> ~ collinear AxisX l /\ ~ collinear AxisY l) /\
  (riverData (processWKT_undisturbed max_arguments wkt sourceName st)
   = Some {| name := default_argument sourceName default_sourceName;
             points := real_points l;
             bounds := getBounds (real_points l) |}
   <-> ~ collinear AxisX l /\ ~ collinear AxisY l).
Proof.
  intros P L.
  pose proof (@parse_real_doubles wkt _ P) as Dl.
  destruct l as [|p l]; [cbn in L; lia|].
  assert (G : forall (a : axis) (q : Q * Q),
             In q (p :: l) -> on_grid (along a q))
    by (intros a q Hq; now apply doubles_In with (p :: l)).
  assert (Zx : (width (getBounds (real_points (p :: l))) === of_Z 0)%num = true
               <-> collinear AxisX (p :: l)).
  { split; [apply (@extent_zero_collinear AxisX), G
           | apply (@collinear_extent_zero AxisX)]. }
  assert (Zy : (height (getBounds (real_points (p :: l))) === of_Z 0)%num = true
               <-> collinear AxisY (p :: l)).
  { split; [apply (@extent_zero_collinear AxisY), G
           | apply (@collinear_extent_zero AxisY)]. }
  assert (L' : (3 <= length (parseWKTPolygon wkt) <= max_arguments)%nat).
  { rewrite P. unfold real_points. rewrite length_map. exact L. }
  unfold processWKT_undisturbed. cbn [processWKT fst snd].
  set (nm := default_argument sourceName default_sourceName).
  destruct ((width (getBounds (parseWKTPolygon wkt)) === of_Z 0)%num
            || (height (getBounds (parseWKTPolygon wkt)) === of_Z 0)%num) eqn:D.
  - assert (N : ~ (~ collinear AxisX (p :: l) /\ ~ collinear AxisY (p :: l))).
    { rewrite P in D. apply orb_true_iff in D. intros [Nx Ny].
      destruct D as [D|D]; [apply Nx, Zx, D | apply Ny, Zy, D]. }
    split; [intro st'|split];
      rewrite (@callback_degenerate max_arguments wkt nm _ L' D);
      cbn [error riverData]; (split; [discriminate | intro C; now elim N]).
  - assert (N : ~ collinear AxisX (p :: l) /\ ~ collinear AxisY (p :: l)).
    { rewrite P in D. apply orb_false_iff in D. destruct D as [Dw Dh].
      split; intro C; [apply Zx in C | apply Zy in C]; congruence. }
    split; [intro st'|split];
      rewrite (@callback_accepted max_arguments wkt nm _ L' D);
      cbn [error riverData processWKT_begin setLabelResult setError
           setIsProcessing];
      rewrite ?P; (split; [intros _; exact N | intros _; reflexivity]).
Qed.

Lemma processWKT_accepts_iff_witness :
  error (processWKT_undisturbed sample_max_arguments square_ring None
           initialState) = None <->
  ~ collinear AxisX [(0, 0); (10, 0); (10, 10); (0, 10); (0, 0)]%Q /\
  ~ collinear AxisY [(0, 0); (10, 0); (10, 10); (0, 10); (0, 0)]%Q.
Proof.
  apply (@processWKT_accepts_iff sample_max_arguments square_ring None
           initialState [(0, 0); (10, 0); (10, 10); (0, 10); (0, 0)]%Q).
  - vm_compute. reflexivity.
  - cbn [length]. unfold sample_max_arguments. lia.
Defined.

End MoreProcessFacts.

Lemma cons_head_length (c : code_unit) (l : list jsstring) :
  l <> [] -> length (cons_head c l) = length l.
Proof. destruct l; [congruence | reflexivity]. Qed.

(** A string has one fragment more than it has separators. *)
Lemma split_length (sep : code_unit) (s : jsstring) :
  length (split sep s) = S (count_occ N.eq_dec s sep).
Proof.
  induction s as [|c r IH]; [reflexivity|].
  cbn [split count_occ].
  destruct (N.eqb_spec c sep) as [E|E].
  - destruct (N.eq_dec c sep); [|contradiction]. cbn [length]. now rewrite IH.
  - destruct (N.eq_dec c sep); [contradiction|].
    rewrite cons_head_length; [exact IH|].
    intro Z. rewrite Z in IH. discriminate IH.
Qed.
(** ** Parsing of well-formed inputs *)

Section ParseFacts.

Local Open Scope N_scope.

Lemma all_spaces_rev (w : jsstring) : all_spaces w = true -> all_spaces (rev w) = true.
Proof.
  unfold all_spaces. rewrite !forallb_forall. intros H c Hc.
  apply H. now apply in_rev.
Qed.

Lemma trimStart_spaces (w s : jsstring) :
  all_spaces w = true -> trimStart (w ++ s) = trimStart s.
Proof.
  induction w as [|c w IH]; [reflexivity|].
  cbn. intro H. apply andb_true_iff in H. destruct H as [Hc Hw].
  rewrite Hc. now apply IH.
Qed.

Lemma trimStart_head (c : code_unit) (r : jsstring) :
  is_space c = false -> trimStart (c :: r) = c :: r.
Proof. intro H. cbn. now rewrite H. Qed.

Lemma trimEnd_spaces (s w : jsstring) :
  all_spaces w = true -> trimEnd (s ++ w) = trimEnd s.
Proof.
  intro H. unfold trimEnd. rewrite rev_app_distr.
  now rewrite trimStart_spaces by now apply all_spaces_rev.
Qed.

Lemma head_not_space_app (s t : jsstring) :
  head_not_space s = true -> head_not_space (s ++ t) = true.
Proof. destruct s; [discriminate | trivial]. Qed.

Lemma last_not_space_app (s t : jsstring) :
  last_not_space t = true -> last_not_space (s ++ t) = true.
Proof.
  unfold last_not_space. rewrite rev_app_distr. apply head_not_space_app.
Qed.

Lemma trimStart_fixed (s : jsstring) :
  head_not_space s = true -> trimStart s = s.
Proof.
  destruct s as [|c r]; [discriminate|]. cbn [head_not_space]. intro H.
  apply negb_true_iff in H. now apply trimStart_head.
Qed.

Lemma trimEnd_fixed (s : jsstring) :
  last_not_space s = true -> trimEnd s = s.
Proof.
  intro H. unfold trimEnd. rewrite trimStart_fixed by exact H.
  apply rev_involutive.
Qed.

(** [trim] leaves what stands between the white space at both ends. *)
Lemma trim_between (w1 s w2 : jsstring) :
  all_spaces w1 = true -> all_spaces w2 = true ->
  head_not_space s = true -> last_not_space s = true ->
  trim (w1 ++ s ++ w2) = s.
Proof.
  intros H1 H2 Hh Hl. unfold trim.
  rewrite trimStart_spaces by exact H1.
  rewrite trimStart_fixed by now apply head_not_space_app.
  rewrite trimEnd_spaces by exact H2.
  now apply trimEnd_fixed.
Qed.

(** The ends of a token are not white space. *)
Lemma token_head (t : jsstring) :
  is_token t = true -> head_not_space t = true.
Proof.
  unfold is_token. intro H. apply andb_true_iff in H. destruct H as [Hn Hf].
  destruct t as [|c r]; [discriminate Hn|].
  cbn [forallb] in Hf. apply andb_true_iff in Hf. destruct Hf as [Hc _].
  apply andb_true_iff in Hc. cbn [head_not_space]. tauto.
Qed.

Lemma token_rev (t : jsstring) : is_token t = true -> is_token (rev t) = true.
Proof.
  unfold is_token. intro H. apply andb_true_iff in H. destruct H as [Hn Hf].
  apply andb_true_iff. split.
  - destruct t as [|c r]; [discriminate Hn|]. cbn [rev].
    destruct (rev r); reflexivity.
  - rewrite forallb_forall in *. intros c Hc. apply Hf. now apply in_rev.
Qed.

Lemma token_last (t : jsstring) :
  is_token t = true -> last_not_space t = true.
Proof. intro H. unfold last_not_space. now apply token_head, token_rev. Qed.

Lemma token_no_space (t : jsstring) :
  is_token t = true -> forallb (fun c => negb (is_space c)) t = true.
Proof.
  unfold is_token. intro H. apply andb_true_iff in H. destruct H as [_ Hf].
  rewrite forallb_forall in *. intros c Hc. specialize (Hf c Hc).
  apply andb_true_iff in Hf. tauto.
Qed.

Lemma token_no_comma (t : jsstring) :
  is_token t = true -> forallb (fun c => negb (c =? comma)) t = true.
Proof.
  unfold is_token. intro H. apply andb_true_iff in H. destruct H as [_ Hf].
  rewrite forallb_forall in *. intros c Hc. specialize (Hf c Hc).
  apply andb_true_iff in Hf. tauto.
Qed.

Lemma spaces_no_comma (w : jsstring) :
  all_spaces w = true -> forallb (fun c => negb (c =? comma)) w = true.
Proof.
  unfold all_spaces. rewrite !forallb_forall. intros H c Hc.
  specialize (H c Hc). destruct (N.eqb_spec c comma) as [E|E]; [|reflexivity].
  subst c. discriminate H.
Qed.

(** *** [split] *)

Lemma split_not_nil (sep : code_unit) (s : jsstring) : split sep s <> [].
Proof.
  intro H. pose proof (split_length sep s) as L. rewrite H in L. discriminate L.
Qed.

(** A piece without a comma stays in front of the first fragment. *)
Lemma split_app (f s : jsstring) :
  forallb (fun c => negb (c =? comma)) f = true ->
  split comma (f ++ s) = cons_head_app f (split comma s).
Proof.
  induction f as [|c f IH]; intro H.
  - cbn [app]. unfold cons_head_app.
    destruct (split comma s) eqn:E; [now apply split_not_nil in E | reflexivity].
  - cbn [forallb] in H. apply andb_true_iff in H. destruct H as [Hc Hf].
    apply negb_true_iff in Hc.
    cbn [app split]. rewrite Hc, (IH Hf). unfold cons_head_app.
    destruct (split comma s) eqn:E; [now apply split_not_nil in E | reflexivity].
Qed.

Lemma split_join (f : jsstring) (fs : list jsstring) :
  forallb (forallb (fun c => negb (c =? comma))) (f :: fs) = true ->
  split comma (join [comma] (f :: fs)) = f :: fs.
Proof.
  revert f. induction fs as [|g fs IH]; intros f H.
  - cbn [join]. cbn [forallb] in H. rewrite andb_true_r in H.
    rewrite <- (app_nil_r f) at 1. rewrite (@split_app f [] H).
    cbn. now rewrite app_nil_r.
  - cbn [forallb] in H. apply andb_true_iff in H. destruct H as [Hf Hr].
    change (join [comma] (f :: g :: fs))
      with (f ++ comma :: join [comma] (g :: fs)).
    rewrite (@split_app f _ Hf). cbn [split]. rewrite N.eqb_refl.
    rewrite (IH g Hr). cbn. now rewrite app_nil_r.
Qed.

(** *** [split] on white space *)

Lemma split_spaces_not_nil (s : jsstring) : split_spaces s <> [].
Proof.
  induction s as [|c r IH]; [discriminate|].
  cbn [split_spaces]. destruct (is_space c).
  - destruct r as [|c' r']; [discriminate|]. destruct (is_space c'); [exact IH | discriminate].
  - destruct (split_spaces r); discriminate.
Qed.

Lemma split_spaces_app (t s : jsstring) :
  forallb (fun c => negb (is_space c)) t = true ->
  split_spaces (t ++ s) = cons_head_app t (split_spaces s).
Proof.
  induction t as [|c t IH]; intro H.
  - cbn [app]. unfold cons_head_app.
    destruct (split_spaces s) eqn:E; [now apply split_spaces_not_nil in E | reflexivity].
  - cbn [forallb] in H. apply andb_true_iff in H. destruct H as [Hc Ht].
    apply negb_true_iff in Hc.
    cbn [app split_spaces]. rewrite Hc, (IH Ht). unfold cons_head_app.
    destruct (split_spaces s) eqn:E; [now apply split_spaces_not_nil in E | reflexivity].
Qed.

Lemma split_spaces_cons2 (a b : code_unit) (r : jsstring) :
  split_spaces (a :: b :: r)
  = if is_space a
    then if is_space b
         then split_spaces (b :: r) else [] :: split_spaces (b :: r)
    else cons_head a (split_spaces (b :: r)).
Proof. reflexivity. Qed.

(** A run of white space in front of a token is one separator. *)
Lemma split_spaces_gap (w : jsstring) (c : code_unit) (r : jsstring) :
  w <> [] -> all_spaces w = true -> is_space c = false ->
  split_spaces (w ++ c :: r) = [] :: split_spaces (c :: r).
Proof.
  induction w as [|a w IH]; intros Hn Hw Hc; [congruence|].
  cbn [all_spaces forallb] in Hw. apply andb_true_iff in Hw.
  destruct Hw as [Ha Hw].
  destruct w as [|a' w'].
  - cbn [app]. rewrite split_spaces_cons2, Ha, Hc. reflexivity.
  - change ((a :: a' :: w') ++ c :: r) with (a :: a' :: (w' ++ c :: r)).
    rewrite split_spaces_cons2, Ha.
    pose proof Hw as Hw2. cbn [forallb] in Hw2. apply andb_true_iff in Hw2.
    destruct Hw2 as [Ha' _]. rewrite Ha'.
    apply IH; [discriminate | exact Hw | exact Hc].
Qed.

Lemma split_spaces_token (t : jsstring) :
  is_token t = true -> split_spaces t = [t].
Proof.
  intro H. rewrite <- (app_nil_r t) at 1.
  rewrite split_spaces_app by now apply token_no_space.
  cbn. now rewrite app_nil_r.
Qed.

Lemma split_spaces_pair (a w b : jsstring) :
  is_token a = true -> w <> [] -> all_spaces w = true -> is_token b = true ->
  split_spaces (a ++ w ++ b) = [a; b].
Proof.
  intros Ha Hn Hw Hb.
  rewrite split_spaces_app by now apply token_no_space.
  pose proof (token_head b Hb) as Hh.
  destruct b as [|c r]; [discriminate Hh|].
  cbn [head_not_space] in Hh. apply negb_true_iff in Hh.
  rewrite split_spaces_gap by assumption.
  rewrite (split_spaces_token (c :: r) Hb).
  cbn. now rewrite app_nil_r.
Qed.

(** *** The two replacements *)

Lemma match_ignore_case_app (kw rest : jsstring) : forall lit : jsstring,
  map canonicalize kw = lit -> match_ignore_case lit (kw ++ rest) = Some rest.
Proof.
  induction kw as [|c kw IH]; intros lit E; subst lit.
  - destruct rest; reflexivity.
  - cbn [map app match_ignore_case]. rewrite N.eqb_refl. now apply IH.
Qed.

Lemma is_keyword_spec (kw : jsstring) :
  is_keyword kw = true -> map canonicalize kw = str "POLYGON".
Proof.
  unfold is_keyword, jsstring_eqb.
  destruct (list_eq_dec N.eq_dec (map canonicalize kw) (str "POLYGON"));
    [trivial | discriminate].
Qed.

Lemma keyword_head (kw : jsstring) :
  is_keyword kw = true -> head_not_space kw = true.
Proof.
  intro H. apply is_keyword_spec in H.
  destruct kw as [|c r]; [discriminate H|].
  cbn [map] in H. injection H as Hc _.
  cbn [head_not_space]. apply negb_true_iff.
  unfold canonicalize in Hc.
  destruct ((97 <=? c) && (c <=? 122)) eqn:E.
  - apply andb_true_iff in E. destruct E as [E1 E2].
    apply N.leb_le in E1, E2.
    assert (c = 112) by lia. subst c. reflexivity.
  - subst c. reflexivity.
Qed.

Lemma replace_polygon_prefix_keyword (kw w0 body : jsstring) :
  is_keyword kw = true -> all_spaces w0 = true ->
  replace_polygon_prefix (kw ++ w0 ++ lparen :: lparen :: body) = body.
Proof.
  intros Hk Hw. unfold replace_polygon_prefix.
  rewrite (@match_ignore_case_app kw _ _ (is_keyword_spec kw Hk)).
  rewrite trimStart_spaces by exact Hw.
  rewrite trimStart_head by reflexivity.
  now rewrite N.eqb_refl.
Qed.

Lemma replace_ring_suffix_parens (body : jsstring) :
  replace_ring_suffix (body ++ [rparen; rparen]) = body.
Proof.
  unfold replace_ring_suffix. rewrite rev_app_distr. cbn [rev app].
  rewrite N.eqb_refl. cbn [andb]. apply rev_involutive.
Qed.

(** *** One fragment *)

Lemma spaced_pair_ok_spec (g : spaced_pair) :
  spaced_pair_ok g = true ->
  all_spaces (before g) = true /\ is_token (first_token g) = true /\
  between g <> [] /\ all_spaces (between g) = true /\
  is_token (second_token g) = true /\ all_spaces (after g) = true.
Proof.
  unfold spaced_pair_ok. rewrite !andb_true_iff.
  intros [[[[H1 H2] [H3 H4]] H5] H6].
  repeat split; try assumption.
  intro Z. rewrite Z in H3. discriminate H3.
Qed.

Lemma spaced_pair_point (g : spaced_pair) :
  spaced_pair_ok g = true ->
  (let nums := map StringToNumber (split_spaces (trim (spaced_pair_text g))) in
   {| x := destructure 0 nums; y := destructure 1 nums |})
  = point_of_tokens (first_token g) (second_token g).
Proof.
  intro H. apply spaced_pair_ok_spec in H.
  destruct H as (H1 & H2 & H3 & H4 & H5 & H6).
  unfold spaced_pair_text.
  replace (before g ++ first_token g ++ between g ++ second_token g ++ after g)
    with (before g ++ (first_token g ++ between g ++ second_token g) ++ after g)
    by (now rewrite <- !app_assoc).
  rewrite trim_between; try assumption.
  - rewrite split_spaces_pair by assumption. reflexivity.
  - now apply head_not_space_app, token_head.
  - now apply last_not_space_app, last_not_space_app, token_last.
Qed.

Lemma spaced_pair_no_comma (g : spaced_pair) :
  spaced_pair_ok g = true ->
  forallb (fun c => negb (c =? comma)) (spaced_pair_text g) = true.
Proof.
  intro H. apply spaced_pair_ok_spec in H.
  destruct H as (H1 & H2 & H3 & H4 & H5 & H6).
  unfold spaced_pair_text. rewrite !forallb_app.
  repeat (apply andb_true_iff; split);
    solve [now apply spaces_no_comma | now apply token_no_comma].
Qed.

(** *** The whole input *)

(** Well-formed inputs with any white space around the keyword, the
    parentheses and the tokens. *)
Lemma parseWKTPolygon_spaced (w1 kw w0 w2 : jsstring)
  (f : spaced_pair) (fs : list spaced_pair) :
  all_spaces w1 = true -> is_keyword kw = true -> all_spaces w0 = true ->
  all_spaces w2 = true -> forallb spaced_pair_ok (f :: fs) = true ->
  parseWKTPolygon
    (w1 ++ (kw ++ w0 ++ lparen :: lparen
               :: join [comma] (map spaced_pair_text (f :: fs))
               ++ [rparen; rparen]) ++ w2)
  = map (fun g => point_of_tokens (first_token g) (second_token g)) (f :: fs).
Proof.
  intros H1 Hk H0 H2 Hf. unfold parseWKTPolygon.
  rewrite trim_between; try assumption.
  - rewrite replace_polygon_prefix_keyword by assumption.
    rewrite replace_ring_suffix_parens.
    change (map spaced_pair_text (f :: fs))
      with (spaced_pair_text f :: map spaced_pair_text fs).
    rewrite split_join.
    + change (spaced_pair_text f :: map spaced_pair_text fs)
        with (map spaced_pair_text (f :: fs)).
      rewrite map_map. apply map_ext_in. intros g Hg.
      apply spaced_pair_point.
      rewrite forallb_forall in Hf. now apply Hf.
    + change (spaced_pair_text f :: map spaced_pair_text fs)
        with (map spaced_pair_text (f :: fs)).
      rewrite forallb_forall in *. intros t Ht.
      apply in_map_iff in Ht. destruct Ht as (g & <- & Hg).
      apply spaced_pair_no_comma. now apply Hf.
  - now apply head_not_space_app, keyword_head.
  - apply last_not_space_app, last_not_space_app.
    change (lparen :: lparen
              :: join [comma] (map spaced_pair_text (f :: fs)) ++ [rparen; rparen])
      with ((lparen :: lparen
               :: join [comma] (map spaced_pair_text (f :: fs))) ++ [rparen; rparen]).
    apply last_not_space_app. reflexivity.
Qed.

(** *** The shape [POLYGON((x1 y1, x2 y2, ..., xn yn))] *)

Lemma join_head (sep u q : jsstring) (l : list jsstring) :
  join sep ((u ++ q) :: l) = u ++ join sep (q :: l).
Proof.
  destruct l as [|j l]; [reflexivity|].
  change (join sep ((u ++ q) :: j :: l)) with ((u ++ q) ++ sep ++ join sep (j :: l)).
  change (join sep (q :: j :: l)) with (q ++ sep ++ join sep (j :: l)).
  now rewrite <- app_assoc.
Qed.

(** After each comma the space goes to the fragment that follows. *)
Lemma join_comma_space (sp : jsstring) (ps : list jsstring) : forall p : jsstring,
  join (comma :: sp) (p :: ps) = join [comma] (p :: map (app sp) ps).
Proof.
  induction ps as [|q qs IH]; intro p; [reflexivity|].
  change (join (comma :: sp) (p :: q :: qs))
    with (p ++ (comma :: sp) ++ join (comma :: sp) (q :: qs)).
  change (join [comma] (p :: map (app sp) (q :: qs)))
    with (p ++ [comma] ++ join [comma] ((sp ++ q) :: map (app sp) qs)).
  rewrite IH, join_head. reflexivity.
Qed.

Lemma plain_pairs_text (p : jsstring * jsstring)
  (ps : list (jsstring * jsstring)) :
  map spaced_pair_text (plain_pairs (p :: ps))
  = pair_text p :: map (app (str " ")) (map pair_text ps).
Proof.
  cbn [plain_pairs map]. f_equal.
  - unfold spaced_pair_text, pair_text. cbn [before first_token between second_token after].
    now rewrite app_nil_r.
  - rewrite !map_map. apply map_ext. intro q.
    unfold spaced_pair_text, pair_text. cbn [before first_token between second_token after].
    now rewrite app_nil_r.
Qed.

Lemma plain_pairs_ok (pairs : list (jsstring * jsstring)) :
  forallb (fun p => is_token (fst p) && is_token (snd p)) pairs = true ->
  forallb spaced_pair_ok (plain_pairs pairs) = true.
Proof.
  intro H. rewrite forallb_forall in *.
  assert (T : forall q, In q pairs -> forall w, all_spaces w = true ->
              spaced_pair_ok (mkSpacedPair w (fst q) (str " ") (snd q) []) = true).
  { intros q Hq w Hw. specialize (H q Hq). apply andb_true_iff in H.
    destruct H as [Ha Hb]. unfold spaced_pair_ok.
    cbn [before first_token between second_token after].
    rewrite Hw, Ha, Hb. reflexivity. }
  destruct pairs as [|p ps]; [intros g []|].
  intros g [Hg|Hg].
  - subst g. apply T; [now left | reflexivity].
  - apply in_map_iff in Hg. destruct Hg as (q & <- & Hq).
    apply T; [now right | reflexivity].
Qed.

Lemma plain_pairs_points (pairs : list (jsstring * jsstring)) :
  map (fun g => point_of_tokens (first_token g) (second_token g))
      (plain_pairs pairs)
  = map (fun p => point_of_tokens (fst p) (snd p)) pairs.
Proof.
  destruct pairs as [|p ps]; [reflexivity|].
  cbn [plain_pairs map first_token second_token]. f_equal.
  rewrite map_map. reflexivity.
Qed.

Lemma polygon_text_spaced (keyword : jsstring) (p : jsstring * jsstring)
  (ps : list (jsstring * jsstring)) :
  polygon_text keyword (p :: ps)
  = [] ++ (keyword ++ [] ++ lparen :: lparen
             :: join [comma] (map spaced_pair_text (plain_pairs (p :: ps)))
             ++ [rparen; rparen]) ++ [].
Proof.
  unfold polygon_text. rewrite plain_pairs_text.
  change (str ", ") with (comma :: str " ").
  change (map pair_text (p :: ps)) with (pair_text p :: map pair_text ps).
  rewrite join_comma_space.
  cbn [app]. rewrite app_nil_r. reflexivity.
Qed.

(** C3: an input [POLYGON((x1 y1, x2 y2, ..., xn yn))], the keyword in any
    mix of capitals and small letters, with at least three pairs of
    tokens, parses to as many points as there are pairs, in the order of
    the pairs, the coordinates of each being what [Number] makes of its
    two tokens. *)
Theorem parseWKTPolygon_well_formed (keyword : jsstring)
  (pairs : list (jsstring * jsstring)) :
  is_keyword keyword = true ->
  forallb (fun p => is_token (fst p) && is_token (snd p)) pairs = true ->
  (3 <= length pairs)%nat ->
  parseWKTPolygon (polygon_text keyword pairs)
  = map (fun p => point_of_tokens (fst p) (snd p)) pairs /\
  length (parseWKTPolygon (polygon_text keyword pairs)) = length pairs.
Proof.
  intros Hk Ht Hn.
  assert (E : parseWKTPolygon (polygon_text keyword pairs)
              = map (fun p => point_of_tokens (fst p) (snd p)) pairs).
  { destruct pairs as [|p ps]; [cbn in Hn; lia|].
    rewrite polygon_text_spaced.
    pose proof (plain_pairs_ok _ Ht) as Ok.
    rewrite <- plain_pairs_points.
    change (plain_pairs (p :: ps))
      with (mkSpacedPair [] (fst p) (str " ") (snd p) []
            :: map (fun q => mkSpacedPair (str " ") (fst q) (str " ") (snd q) []) ps)
      in *.
    apply parseWKTPolygon_spaced; trivial. }
  split; [exact E|]. rewrite E. apply length_map.
Qed.

Lemma parseWKTPolygon_well_formed_witness :
  parseWKTPolygon
    (polygon_text (str "PoLyGoN")
       [(str "0", str "0"); (str "10", str "0"); (str "2.5", str "-1e1")])
  = map (fun p => point_of_tokens (fst p) (snd p))
      [(str "0", str "0"); (str "10", str "0"); (str "2.5", str "-1e1")] /\
  length
    (parseWKTPolygon
       (polygon_text (str "PoLyGoN")
          [(str "0", str "0"); (str "10", str "0"); (str "2.5", str "-1e1")]))
  = 3%nat.
Proof.
  apply (parseWKTPolygon_well_formed (str "PoLyGoN")
           [(str "0", str "0"); (str "10", str "0"); (str "2.5", str "-1e1")]).
  - vm_compute. reflexivity.
  - vm_compute. reflexivity.
  - simpl. lia.
Defined.

End ParseFacts.

(** ** What the parser accepts and what it makes of fragments *)

Section MoreParseFacts.

Local Open Scope N_scope.

(** The parse of an input whose text, once trimmed and stripped, is a
    comma-separated list of spaced pairs. *)
Lemma parseWKTPolygon_cleaned (wkt : jsstring) (f : spaced_pair)
  (fs : list spaced_pair) :
  replace_ring_suffix (replace_polygon_prefix (trim wkt))
  = join [comma] (map spaced_pair_text (f :: fs)) ->
  forallb spaced_pair_ok (f :: fs) = true ->
  parseWKTPolygon wkt
  = map (fun g => point_of_tokens (first_token g) (second_token g)) (f :: fs).
Proof.
  intros E Hf. unfold parseWKTPolygon. rewrite E.
  change (map spaced_pair_text (f :: fs))
    with (spaced_pair_text f :: map spaced_pair_text fs).
  rewrite split_join.
  - change (spaced_pair_text f :: map spaced_pair_text fs)
      with (map spaced_pair_text (f :: fs)).
    rewrite map_map. apply map_ext_in. intros g Hg.
    apply spaced_pair_point.
    rewrite forallb_forall in Hf. now apply Hf.
  - change (spaced_pair_text f :: map spaced_pair_text fs)
      with (map spaced_pair_text (f :: fs)).
    rewrite forallb_forall in *. intros t Ht.
    apply in_map_iff in Ht. destruct Ht as (g & <- & Hg).
    apply spaced_pair_no_comma. now apply Hf.
Qed.

Lemma spaced_pair_ok_tokens (fs : list spaced_pair) :
  forallb spaced_pair_ok fs = true ->
  forallb (fun p => is_token (fst p) && is_token (snd p))
          (map pair_of_spaced fs) = true.
Proof.
  intro H. rewrite forallb_forall in *. intros q Hq.
  apply in_map_iff in Hq. destruct Hq as (g & <- & Hg).
  destruct (spaced_pair_ok_spec g (H g Hg)) as (_ & Ha & _ & _ & Hb & _).
  cbn [pair_of_spaced fst snd]. now rewrite Ha, Hb.
Qed.

(** X13: white space does not matter to the parser: around the whole
    input, between the keyword and the parentheses, around each comma and
    between the two tokens of a pair, any amount of it gives the points
    that the input written [POLYGON((x1 y1, x2 y2, ...))] with the same
    tokens gives. *)
Theorem parseWKTPolygon_white_space (w1 kw w0 w2 : jsstring)
  (f : spaced_pair) (fs : list spaced_pair) :
  all_spaces w1 = true -> is_keyword kw = true -> all_spaces w0 = true ->
  all_spaces w2 = true -> forallb spaced_pair_ok (f :: fs) = true ->
  parseWKTPolygon
    (w1 ++ (kw ++ w0 ++ lparen :: lparen
               :: join [comma] (map spaced_pair_text (f :: fs))
               ++ [rparen; rparen]) ++ w2)
  = parseWKTPolygon
      (polygon_text (str "POLYGON") (map pair_of_spaced (f :: fs))).
Proof.
  intros H1 Hk H0 H2 Hf.
  rewrite (parseWKTPolygon_spaced w1 kw w0 w2 f fs H1 Hk H0 H2 Hf).
  change (map pair_of_spaced (f :: fs))
    with (pair_of_spaced f :: map pair_of_spaced fs).
  rewrite polygon_text_spaced.
  pose proof (plain_pairs_ok _ (spaced_pair_ok_tokens (f :: fs) Hf)) as Ok.
  change (map pair_of_spaced (f :: fs))
    with (pair_of_spaced f :: map pair_of_spaced fs) in Ok.
  pose proof (plain_pairs_points (pair_of_spaced f :: map pair_of_spaced fs)) as Pp.
  change (plain_pairs (pair_of_spaced f :: map pair_of_spaced fs))
    with (mkSpacedPair [] (fst (pair_of_spaced f)) (str " ")
            (snd (pair_of_spaced f)) []
          :: map (fun q => mkSpacedPair (str " ") (fst q) (str " ") (snd q) [])
               (map pair_of_spaced fs))
    in *.
  rewrite parseWKTPolygon_spaced; trivial.
  rewrite Pp.
  change (pair_of_spaced f :: map pair_of_spaced fs)
    with (map pair_of_spaced (f :: fs)).
  rewrite map_map. reflexivity.
Qed.

Lemma parseWKTPolygon_white_space_witness :
  parseWKTPolygon (str " polygon  (( 0   0 ,1 1  ,  2 0 ))  ")
  = parseWKTPolygon (str "POLYGON((0 0, 1 1, 2 0))").
Proof.
  apply (@parseWKTPolygon_white_space (str " ") (str "polygon") (str "  ")
           (str "  ")
           (mkSpacedPair (str " ") (str "0") (str "   ") (str "0") (str " "))
           [mkSpacedPair [] (str "1") (str " ") (str "1") (str "  ");
            mkSpacedPair (str "  ") (str "2") (str " ") (str "0") (str " ")]);
    vm_compute; reflexivity.
Defined.

(** X14: every point that the parser returns has a number for x, NaN at
    worst, never [undefined]; its y is [undefined] exactly when its
    fragment holds one token only. *)
Theorem parsed_point_shape (wkt : jsstring) (i : nat) (fragment : jsstring) :
  nth_error (fragments wkt) i = Some fragment ->
  exists p : Point,
    nth_error (parseWKTPolygon wkt) i = Some p /\
    (exists n : num, x p = Number n) /\
    (y p = Undefined <-> length (tokens fragment) = 1%nat).
Proof.
  intro H. eexists. split; [exact (parseWKTPolygon_nth wkt i H)|].
  cbn [x y]. unfold tokens.
  destruct (split_spaces (trim fragment)) as [|t ts] eqn:E;
    [now apply split_spaces_not_nil in E|].
  split; [eexists; reflexivity|].
  destruct ts as [|t' ts]; cbn; split; (reflexivity || discriminate).
Qed.

Lemma parsed_point_shape_witness :
  exists p : Point,
    nth_error (parseWKTPolygon (str "POLYGON((1 2, 3, 5 6))")) 1 = Some p /\
    (exists n : num, x p = Number n) /\
    (y p = Undefined <-> length (tokens (str " 3")) = 1%nat).
Proof.
  apply (@parsed_point_shape (str "POLYGON((1 2, 3, 5 6))") 1 (str " 3")).
  vm_compute. reflexivity.
Defined.

Lemma trimStart_all_spaces (w : jsstring) :
  all_spaces w = true -> trimStart w = [].
Proof.
  induction w as [|c w IH]; [reflexivity|].
  cbn. intro H. apply andb_true_iff in H. destruct H as [Hc Hw].
  rewrite Hc. now apply IH.
Qed.

Lemma trim_all_spaces (w : jsstring) : all_spaces w = true -> trim w = [].
Proof. intro H. unfold trim. now rewrite (trimStart_all_spaces w H). Qed.

(** X15: a fragment that is empty or white space, as the one after a
    trailing comma is, is not skipped: it gives the point with x = 0 and y
    [undefined], and with it the minimum, the maximum and the height of
    the bounds along y are NaN. *)
Theorem blank_fragment_point (wkt : jsstring) (i : nat) (fragment : jsstring) :
  nth_error (fragments wkt) i = Some fragment ->
  all_spaces fragment = true ->
  nth_error (parseWKTPolygon wkt) i
  = Some {| x := Number (Fin 0); y := Undefined |} /\
  minY (getBounds (parseWKTPolygon wkt)) = NaN /\
  maxY (getBounds (parseWKTPolygon wkt)) = NaN /\
  height (getBounds (parseWKTPolygon wkt)) = NaN.
Proof.
  intros H B.
  assert (P : nth_error (parseWKTPolygon wkt) i
              = Some {| x := Number (Fin 0); y := Undefined |}).
  { rewrite (parseWKTPolygon_nth wkt i H). unfold tokens.
    rewrite (trim_all_spaces fragment B). reflexivity. }
  split; [exact P|].
  apply (@getBounds_NaN AxisY (parseWKTPolygon wkt)
           {| x := Number (Fin 0); y := Undefined |}).
  - eapply nth_error_In, P.
  - reflexivity.
Qed.

Lemma blank_fragment_point_witness :
  nth_error (parseWKTPolygon (str "POLYGON((0 0, 4 0, 4 3,))")) 3
  = Some {| x := Number (Fin 0); y := Undefined |} /\
  minY (getBounds (parseWKTPolygon (str "POLYGON((0 0, 4 0, 4 3,))"))) = NaN /\
  maxY (getBounds (parseWKTPolygon (str "POLYGON((0 0, 4 0, 4 3,))"))) = NaN /\
  height (getBounds (parseWKTPolygon (str "POLYGON((0 0, 4 0, 4 3,))"))) = NaN.
Proof.
  apply (@blank_fragment_point (str "POLYGON((0 0, 4 0, 4 3,))") 3 []).
  - vm_compute. reflexivity.
  - reflexivity.
Defined.

(** The tokens of two tokens followed by more text. *)
Lemma split_spaces_pair_more (a w b w' extra : jsstring) :
  is_token a = true -> w <> [] -> all_spaces w = true ->
  is_token b = true -> w' <> [] -> all_spaces w' = true ->
  head_not_space extra = true ->
  split_spaces (a ++ w ++ b ++ w' ++ extra) = a :: b :: split_spaces extra.
Proof.
  intros Ha Hn Hw Hb Hn' Hw' He.
  rewrite split_spaces_app by now apply token_no_space.
  pose proof (token_head b Hb) as Hh.
  destruct b as [|c r]; [discriminate Hh|].
  cbn [head_not_space] in Hh. apply negb_true_iff in Hh.
  change ((c :: r) ++ w' ++ extra) with (c :: r ++ w' ++ extra).
  rewrite split_spaces_gap by assumption.
  change (c :: r ++ w' ++ extra) with ((c :: r) ++ w' ++ extra).
  rewrite split_spaces_app by now apply token_no_space.
  destruct extra as [|e extra]; [discriminate He|].
  cbn [head_not_space] in He. apply negb_true_iff in He.
  rewrite split_spaces_gap by assumption.
  cbn [cons_head_app]. now rewrite !app_nil_r.
Qed.

(** X16: what follows the second token of a fragment, a third coordinate
    for instance, is ignored: the point is made of the first two tokens. *)
Theorem extra_tokens_ignored (wkt : jsstring) (i : nat) (g : spaced_pair)
  (extra : jsstring) :
  nth_error (fragments wkt) i = Some (spaced_pair_text g ++ extra) ->
  spaced_pair_ok g = true -> after g <> [] ->
  head_not_space extra = true -> last_not_space extra = true ->
  nth_error (parseWKTPolygon wkt) i
  = Some (point_of_tokens (first_token g) (second_token g)).
Proof.
  intros H Ok Na Hh Hl.
  rewrite (parseWKTPolygon_nth wkt i H). unfold tokens.
  apply spaced_pair_ok_spec in Ok.
  destruct Ok as (H1 & H2 & H3 & H4 & H5 & H6).
  unfold spaced_pair_text.
  replace ((before g ++ first_token g ++ between g ++ second_token g ++ after g)
           ++ extra)
    with (before g
          ++ (first_token g ++ between g ++ second_token g ++ after g ++ extra)
          ++ [])
    by (now rewrite app_nil_r, <- !app_assoc).
  rewrite trim_between; trivial.
  - rewrite split_spaces_pair_more by assumption. reflexivity.
  - now apply head_not_space_app, token_head.
  - now apply last_not_space_app, last_not_space_app, last_not_space_app,
      last_not_space_app.
Qed.

Lemma extra_tokens_ignored_witness :
  nth_error (parseWKTPolygon (str "POLYGON((1 2 30, 4 5 60, 7 8 90))")) 1
  = Some (point_of_tokens (str "4") (str "5")).
Proof.
  apply (@extra_tokens_ignored (str "POLYGON((1 2 30, 4 5 60, 7 8 90))") 1
           (mkSpacedPair (str " ") (str "4") (str " ") (str "5") (str " "))
           (str "60")).
  - vm_compute. reflexivity.
  - vm_compute. reflexivity.
  - discriminate.
  - reflexivity.
  - reflexivity.
Defined.

(** *** [Number] on text that is not a literal *)

Lemma span_app (f : code_unit -> bool) (s : jsstring) :
  fst (span f s) ++ snd (span f s) = s /\ forallb f (fst (span f s)) = true.
Proof.
  induction s as [|c r [IH1 IH2]]; [split; reflexivity|].
  cbn [span]. destruct (f c) eqn:Fc; [|split; reflexivity].
  destruct (span f r) as [a b]. cbn [fst snd app forallb] in *.
  rewrite IH1, Fc, IH2. split; reflexivity.
Qed.

Lemma forallb_weaken (f g : code_unit -> bool) (s : jsstring) :
  (forall c, f c = true -> g c = true) ->
  forallb f s = true -> forallb g s = true.
Proof.
  intros W H. rewrite forallb_forall in *. intros c Hc. apply W, H, Hc.
Qed.

Lemma digit_numeric (c : code_unit) : is_digit c = true -> numeric_char c = true.
Proof. intro H. unfold numeric_char, is_hex_digit. now rewrite H. Qed.

Lemma hex_digit_numeric (c : code_unit) :
  is_hex_digit c = true -> numeric_char c = true.
Proof. intro H. unfold numeric_char. now rewrite H. Qed.

Lemma octal_digit_numeric (c : code_unit) :
  is_octal_digit c = true -> numeric_char c = true.
Proof.
  unfold is_octal_digit. intro H. apply andb_true_iff in H. destruct H as [L U].
  apply digit_numeric. unfold is_digit. rewrite L.
  apply N.leb_le in U. apply N.leb_le. lia.
Qed.

Lemma binary_digit_numeric (c : code_unit) :
  is_binary_digit c = true -> numeric_char c = true.
Proof.
  unfold is_binary_digit. intro H. apply andb_true_iff in H. destruct H as [L U].
  apply digit_numeric. unfold is_digit. rewrite L.
  apply N.leb_le in U. apply N.leb_le. lia.
Qed.

Lemma is_nil_true (s : jsstring) : is_nil s = true -> s = [].
Proof. destruct s; [reflexivity | discriminate]. Qed.

Lemma span_digits_numeric (s : jsstring) :
  forallb numeric_char (fst (span is_digit s)) = true.
Proof.
  apply forallb_weaken with is_digit; [exact digit_numeric|].
  apply span_app.
Qed.

Lemma parse_exponent_numeric (s : jsstring) (z : Z) :
  parse_exponent s = Some z -> forallb numeric_char s = true.
Proof.
  destruct s as [|e r]; [reflexivity|].
  cbn [parse_exponent].
  destruct ((e =? 101) || (e =? 69)) eqn:He; [|discriminate].
  assert (Ne : numeric_char e = true).
  { apply orb_true_iff in He. destruct He as [He|He];
      apply N.eqb_eq in He; subst e; reflexivity. }
  assert (K : forall (sign : Z) (r1 : jsstring),
             (let (ds, r2) := span is_digit r1 in
              if negb (is_nil ds) && is_nil r2
              then Some (sign * digits_value 10 ds)%Z else None) = Some z ->
             forallb numeric_char r1 = true).
  { intros sign r1. pose proof (span_app is_digit r1) as [A _].
    pose proof (span_digits_numeric r1) as D.
    destruct (span is_digit r1) as [ds r2]. cbn [fst snd] in *.
    destruct (negb (is_nil ds) && is_nil r2) eqn:C; [|discriminate].
    apply andb_true_iff in C. destruct C as [_ C]. apply is_nil_true in C.
    subst r2. rewrite app_nil_r in A. subst ds. intros _. exact D. }
  cbn [forallb]. rewrite Ne. cbn [andb].
  destruct r as [|c r']; [apply (K 1%Z [])|].
  destruct (N.eq_dec c 43) as [->|N43].
  { intro H. cbn [forallb]. apply (K 1%Z r' H). }
  destruct (N.eq_dec c 45) as [->|N45].
  { intro H. cbn [forallb]. apply (K (-1)%Z r' H). }
  intro H. apply (K 1%Z (c :: r')).
  destruct c as [|pc]; [exact H|].
  repeat (destruct pc as [pc|pc|]; try exact H; try (now elim N43); try (now elim N45)).
Qed.

Lemma fraction_numeric (r1 fp r2 : jsstring) :
  match r1 with
  | 46 :: r => span is_digit r
  | _ => ([], r1)
  end = (fp, r2) ->
  forallb numeric_char r2 = true -> forallb numeric_char r1 = true.
Proof.
  destruct r1 as [|c r]; [intro H; injection H as <- <-; trivial|].
  destruct (N.eq_dec c 46) as [->|Ne].
  - intros H R2. pose proof (span_app is_digit r) as [A _].
    pose proof (span_digits_numeric r) as D.
    rewrite H in A, D. cbn [fst snd] in A, D.
    cbn [forallb]. rewrite <- A, forallb_app, D, R2. reflexivity.
  - assert (M : match c :: r with
                | 46 :: r0 => span is_digit r0
                | _ => ([], c :: r)
                end = ([], c :: r)).
    { destruct c as [|pc]; [reflexivity|].
      repeat (destruct pc as [pc|pc|]; try reflexivity; try (now elim Ne)). }
    intro H. pose proof (eq_trans (eq_sym M) H) as E.
    injection E as <- <-. trivial.
Qed.

Lemma parse_unsigned_decimal_numeric (s : jsstring) (n : num) :
  parse_unsigned_decimal s = Some n -> forallb numeric_char s = true.
Proof.
  unfold parse_unsigned_decimal, jsstring_eqb.
  destruct (list_eq_dec N.eq_dec s (str "Infinity")) as [->|_];
    [reflexivity|].
  pose proof (span_app is_digit s) as [A _].
  pose proof (span_digits_numeric s) as D.
  destruct (span is_digit s) as [ip r1]. cbn [fst snd] in A, D.
  destruct (match r1 with
            | 46 :: r => span is_digit r
            | _ => ([], r1)
            end) as [fp r2] eqn:F.
  destruct (is_nil ip && is_nil fp); [discriminate|].
  destruct (parse_exponent r2) as [e|] eqn:E; [|discriminate].
  intros _. rewrite <- A, forallb_app, D.
  apply (fraction_numeric r1 F), (parse_exponent_numeric r2 E).
Qed.

Lemma parse_decimal_numeric (s : jsstring) (n : num) :
  parse_decimal s = Some n -> forallb numeric_char s = true.
Proof.
  destruct s as [|c r]; [reflexivity|].
  destruct (N.eq_dec c 43) as [->|N43].
  { cbn [parse_decimal forallb]. intro H.
    now rewrite (parse_unsigned_decimal_numeric r H). }
  destruct (N.eq_dec c 45) as [->|N45].
  { cbn [parse_decimal forallb].
    destruct (parse_unsigned_decimal r) as [m|] eqn:E; [|discriminate].
    intros _. now rewrite (parse_unsigned_decimal_numeric r E). }
  assert (M : parse_decimal (c :: r) = parse_unsigned_decimal (c :: r)).
  { unfold parse_decimal. destruct c as [|pc]; [reflexivity|].
    repeat (destruct pc as [pc|pc|]; try reflexivity;
            try (now elim N43); try (now elim N45)). }
  rewrite M. apply parse_unsigned_decimal_numeric.
Qed.

Lemma parse_non_decimal_numeric (s : jsstring) (n : num) :
  parse_non_decimal s = Some n -> forallb numeric_char s = true.
Proof.
  destruct s as [|c r]; [discriminate|].
  destruct (N.eq_dec c 48) as [->|N48].
  - destruct r as [|p ds]; [discriminate|].
    cbn [parse_non_decimal forallb].
    change (numeric_char 48) with true. cbn [andb].
    assert (K : forall (base : Z) (ok : code_unit -> bool),
               (forall d, ok d = true -> numeric_char d = true) ->
               (if negb (is_nil ds) && forallb ok ds
                then Some (round (inject_Z (digits_value base ds))) else None) = Some n ->
               forallb numeric_char ds = true).
    { intros base ok W. destruct (negb (is_nil ds) && forallb ok ds) eqn:C;
        [|discriminate].
      apply andb_true_iff in C. destruct C as [_ C]. intros _.
      exact (forallb_weaken ok numeric_char ds W C). }
    destruct ((p =? 120) || (p =? 88)) eqn:Hx.
    { intro H. rewrite (K 16%Z is_hex_digit hex_digit_numeric H), andb_true_r.
      apply orb_true_iff in Hx. destruct Hx as [Hx|Hx];
        apply N.eqb_eq in Hx; subst p; reflexivity. }
    destruct ((p =? 111) || (p =? 79)) eqn:Ho.
    { intro H. rewrite (K 8%Z is_octal_digit octal_digit_numeric H), andb_true_r.
      apply orb_true_iff in Ho. destruct Ho as [Ho|Ho];
        apply N.eqb_eq in Ho; subst p; reflexivity. }
    destruct ((p =? 98) || (p =? 66)) eqn:Hb; [|discriminate].
    intro H. rewrite (K 2%Z is_binary_digit binary_digit_numeric H), andb_true_r.
    apply orb_true_iff in Hb. destruct Hb as [Hb|Hb];
      apply N.eqb_eq in Hb; subst p; reflexivity.
  - assert (M : parse_non_decimal (c :: r) = None).
    { unfold parse_non_decimal. destruct c as [|pc]; [reflexivity|].
      repeat (destruct pc as [pc|pc|]; try reflexivity; try (now elim N48)). }
    rewrite M. discriminate.
Qed.

(** X17: [Number] gives NaN for every text that, once trimmed, holds a
    code unit that occurs in no numeric literal: only digits, the letters
    a to f, x, o, b and those of [Infinity], the two signs and the dot can
    stand in a text that [Number] turns into a number.  A parenthesis
    glued to a token, as around the inner rings of a polygon with holes,
    makes that coordinate NaN. *)
Theorem StringToNumber_foreign (s : jsstring) :
  forallb numeric_char (trim s) = false -> StringToNumber s = NaN.
Proof.
  intro H. unfold StringToNumber.
  destruct (is_nil (trim s)) eqn:Z.
  { apply is_nil_true in Z. rewrite Z in H. discriminate H. }
  destruct (parse_non_decimal (trim s)) as [n|] eqn:P.
  { rewrite (parse_non_decimal_numeric (trim s) P) in H. discriminate H. }
  destruct (parse_decimal (trim s)) as [n|] eqn:D.
  { rewrite (parse_decimal_numeric (trim s) D) in H. discriminate H. }
  reflexivity.
Qed.

Lemma StringToNumber_foreign_witness : StringToNumber (str "4)") = NaN.
Proof. apply (StringToNumber_foreign (str "4)")). vm_compute. reflexivity. Defined.

(** *** Input without the keyword and the parentheses *)

Lemma head_sat_app (f : code_unit -> bool) (s t : jsstring) :
  head_sat f s = true -> head_sat f (s ++ t) = true.
Proof. destruct s; [discriminate | trivial]. Qed.

Lemma last_sat_app (f : code_unit -> bool) (s t : jsstring) :
  last_sat f t = true -> last_sat f (s ++ t) = true.
Proof. unfold last_sat. rewrite rev_app_distr. apply head_sat_app. Qed.

Lemma join_head_sat (f : code_unit -> bool) (sep t : jsstring)
  (r : list jsstring) :
  head_sat f t = true -> head_sat f (join sep (t :: r)) = true.
Proof.
  intro H. destruct r as [|u r]; [exact H|].
  change (join sep (t :: u :: r)) with (t ++ sep ++ join sep (u :: r)).
  now apply head_sat_app.
Qed.

Lemma join_last_sat (f : code_unit -> bool) (sep d : jsstring)
  (l : list jsstring) :
  l <> [] -> last_sat f (last l d) = true -> last_sat f (join sep l) = true.
Proof.
  induction l as [|t l IH]; [congruence|]. intros _ H.
  destruct l as [|u l]; [exact H|].
  change (join sep (t :: u :: l)) with (t ++ sep ++ join sep (u :: l)).
  apply last_sat_app, last_sat_app, IH; [discriminate | exact H].
Qed.

Lemma last_cons_default (A : Type) (l : list A) : forall a d d' : A,
  last (a :: l) d = last (a :: l) d'.
Proof.
  induction l as [|b l IH]; intros a d d'; [reflexivity|].
  change (last (a :: b :: l) d) with (last (b :: l) d).
  change (last (a :: b :: l) d') with (last (b :: l) d').
  apply IH.
Qed.

Lemma last_map_pair_text (qs : list (jsstring * jsstring)) :
  forall q : jsstring * jsstring,
    last (map pair_text (q :: qs)) [] = pair_text (last (q :: qs) q).
Proof.
  induction qs as [|u qs IH]; intro q; [reflexivity|].
  change (last (map pair_text (q :: u :: qs)) [])
    with (last (map pair_text (u :: qs)) []).
  change (last (q :: u :: qs) q) with (last (u :: qs) q).
  rewrite IH. f_equal. apply last_cons_default.
Qed.

Lemma replace_polygon_prefix_other (s : jsstring) :
  head_sat not_letter_p s = true -> replace_polygon_prefix s = s.
Proof.
  destruct s as [|c r]; [discriminate|].
  cbn [head_sat]. unfold not_letter_p. intro H. apply negb_true_iff in H.
  unfold replace_polygon_prefix.
  change (str "POLYGON") with (80 :: str "OLYGON").
  cbn [match_ignore_case]. now rewrite H.
Qed.

Lemma replace_ring_suffix_other (s : jsstring) :
  last_sat not_rparen s = true -> replace_ring_suffix s = s.
Proof.
  unfold last_sat, replace_ring_suffix.
  destruct (rev s) as [|d [|d2 r]]; [discriminate | reflexivity |].
  cbn [head_sat]. unfold not_rparen. intro H. apply negb_true_iff in H.
  now rewrite H.
Qed.

(** X18: the keyword and the parentheses are not required: a bare list
    [x1 y1, x2 y2, ..., xn yn] of pairs of tokens, the first token not
    starting with the letter P and the last not ending with a closing
    parenthesis, parses to the points that the same list wrapped in
    [POLYGON((] and [))] parses to. *)
Theorem parseWKTPolygon_bare (q : jsstring * jsstring)
  (qs : list (jsstring * jsstring)) :
  forallb (fun p => is_token (fst p) && is_token (snd p)) (q :: qs) = true ->
  head_sat not_letter_p (fst q) = true ->
  last_sat not_rparen (snd (last (q :: qs) q)) = true ->
  parseWKTPolygon (ring_text (q :: qs))
  = parseWKTPolygon (polygon_text (str "POLYGON") (q :: qs)) /\
  parseWKTPolygon (ring_text (q :: qs))
  = map (fun p => point_of_tokens (fst p) (snd p)) (q :: qs).
Proof.
  intros Ht Hp Hr.
  pose proof (plain_pairs_ok _ Ht) as Ok.
  assert (Tq : is_token (fst q) = true /\ is_token (snd (last (q :: qs) q)) = true).
  { rewrite forallb_forall in Ht. split.
    - specialize (Ht q (or_introl eq_refl)). apply andb_true_iff in Ht. tauto.
    - assert (I : In (last (q :: qs) q) (q :: qs)).
      { destruct (exists_last (l := q :: qs)) as (l' & z & E); [discriminate|].
        rewrite E, last_last. apply in_or_app. right. now left. }
      specialize (Ht _ I). apply andb_true_iff in Ht. tauto. }
  destruct Tq as [Tf Tl].
  assert (B : ring_text (q :: qs)
              = join [comma] (map spaced_pair_text (plain_pairs (q :: qs)))).
  { unfold ring_text. rewrite plain_pairs_text.
    change (str ", ") with (comma :: str " ").
    change (map pair_text (q :: qs)) with (pair_text q :: map pair_text qs).
    apply join_comma_space. }
  assert (Hd : forall f, head_sat f (fst q) = true ->
                         head_sat f (ring_text (q :: qs)) = true).
  { intros f H. unfold ring_text.
    change (map pair_text (q :: qs)) with (pair_text q :: map pair_text qs).
    apply join_head_sat. unfold pair_text. now apply head_sat_app. }
  assert (Ld : forall f, last_sat f (snd (last (q :: qs) q)) = true ->
                         last_sat f (ring_text (q :: qs)) = true).
  { intros f H. unfold ring_text.
    apply join_last_sat with (d := []); [discriminate|].
    rewrite last_map_pair_text. unfold pair_text.
    now apply last_sat_app, last_sat_app. }
  assert (C : replace_ring_suffix
                (replace_polygon_prefix (trim (ring_text (q :: qs))))
              = join [comma] (map spaced_pair_text (plain_pairs (q :: qs)))).
  { unfold trim.
    rewrite trimStart_fixed by (apply (Hd (fun c => negb (is_space c))),
                                 (token_head _ Tf)).
    rewrite trimEnd_fixed by (apply (Ld (fun c => negb (is_space c))),
                               (token_last _ Tl)).
    rewrite replace_polygon_prefix_other by now apply Hd.
    rewrite replace_ring_suffix_other by now apply Ld.
    exact B. }
  assert (E : parseWKTPolygon (ring_text (q :: qs))
              = map (fun p => point_of_tokens (fst p) (snd p)) (q :: qs)).
  { rewrite <- plain_pairs_points.
    change (plain_pairs (q :: qs))
      with (mkSpacedPair [] (fst q) (str " ") (snd q) []
            :: map (fun u => mkSpacedPair (str " ") (fst u) (str " ") (snd u) []) qs)
      in *.
    now apply parseWKTPolygon_cleaned. }
  split; [|exact E].
  rewrite E, polygon_text_spaced, <- plain_pairs_points.
  change (plain_pairs (q :: qs))
    with (mkSpacedPair [] (fst q) (str " ") (snd q) []
          :: map (fun u => mkSpacedPair (str " ") (fst u) (str " ") (snd u) []) qs)
    in *.
  symmetry. now apply parseWKTPolygon_spaced.
Qed.

Lemma parseWKTPolygon_bare_witness :
  parseWKTPolygon (str "0 0, 4 0, 4 3")
  = parseWKTPolygon (str "POLYGON((0 0, 4 0, 4 3))") /\
  parseWKTPolygon (str "0 0, 4 0, 4 3")
  = map (fun p => point_of_tokens (fst p) (snd p))
      [(str "0", str "0"); (str "4", str "0"); (str "4", str "3")].
Proof.
  apply (@parseWKTPolygon_bare (str "0", str "0")
           [(str "4", str "0"); (str "4", str "3")]);
    vm_compute; reflexivity.
Defined.

End MoreParseFacts.

(** ** Inputs longer than a call takes as arguments *)

Section LongInputFacts.








End LongInputFacts.



(** ** The run button *)

Section HandlerFacts.

Lemma trimStart_idempotent (s : jsstring) :
  trimStart (trimStart s) = trimStart s.
Proof.
  induction s as [|c r IH]; [reflexivity|].
  cbn [trimStart]. destruct (is_space c) eqn:C; [exact IH|].
  cbn [trimStart]. now rewrite C.
Qed.

Lemma trimStart_nil (s : jsstring) : trimStart s = [] -> all_spaces s = true.
Proof.
  induction s as [|c r IH]; [reflexivity|].
  cbn [trimStart all_spaces forallb]. destruct (is_space c); [exact IH | discriminate].
Qed.

(** What [trim] leaves is empty exactly for white space. *)
Lemma trim_nil_iff (w : jsstring) : is_nil (trim w) = all_spaces w.
Proof.
  destruct (all_spaces w) eqn:A.
  - now rewrite (trim_all_spaces w A).
  - destruct (trim w) as [|c r] eqn:T; [|reflexivity].
    exfalso. unfold trim, trimEnd in T.
    assert (R : trimStart (rev (trimStart w)) = []).
    { rewrite <- (rev_involutive (trimStart (rev (trimStart w)))), T.
      reflexivity. }
    apply trimStart_nil, all_spaces_rev in R. rewrite rev_involutive in R.
    apply trimStart_all_spaces in R. rewrite trimStart_idempotent in R.
    apply trimStart_nil in R. congruence.
Qed.

(** X19: the run button processes the text area unless it holds nothing
    but white space; then it sets no timer, leaves the error that asks for
    an input and, unlike [processWKT], keeps the label that was there, as
    it keeps the river. *)
Theorem handleRunClick_blank (max_arguments : nat) (st : AppState) :
  handleRunClick max_arguments st
  = (if all_spaces (wktInput st)
     then (setError (Some msg_paste) st, None)
     else (fst (processWKT max_arguments (wktInput st) None st),
           Some (snd (processWKT max_arguments (wktInput st) None st)))) /\
  (all_spaces (wktInput st) = true ->
   snd (handleRunClick max_arguments st) = None /\
   error (fst (handleRunClick max_arguments st)) = Some msg_paste /\
   riverData (fst (handleRunClick max_arguments st)) = riverData st /\
   labelResult (fst (handleRunClick max_arguments st)) = labelResult st).
Proof.
  assert (E : handleRunClick max_arguments st
              = if all_spaces (wktInput st)
                then (setError (Some msg_paste) st, None)
                else (fst (processWKT max_arguments (wktInput st) None st),
                      Some (snd (processWKT max_arguments (wktInput st) None st)))).
  { unfold handleRunClick. rewrite trim_nil_iff.
    now destruct (all_spaces (wktInput st)). }
  split; [exact E|].
  intro A. rewrite E, A. repeat split.
Qed.

Lemma handleRunClick_blank_witness :
  snd (handleRunClick sample_max_arguments
         (setWktInput (str "   ")
            (processWKT_undisturbed sample_max_arguments square_ring None
               initialState)))
  = None /\
  error (fst (handleRunClick sample_max_arguments
                (setWktInput (str "   ")
                   (processWKT_undisturbed sample_max_arguments square_ring
                      None initialState))))
  = Some msg_paste /\
  riverData (fst (handleRunClick sample_max_arguments
                    (setWktInput (str "   ")
                       (processWKT_undisturbed sample_max_arguments
                          square_ring None initialState))))
  = riverData (setWktInput (str "   ")
                 (processWKT_undisturbed sample_max_arguments square_ring None
                    initialState)) /\
  labelResult (fst (handleRunClick sample_max_arguments
                      (setWktInput (str "   ")
                         (processWKT_undisturbed sample_max_arguments
                            square_ring None initialState))))
  = labelResult (setWktInput (str "   ")
                   (processWKT_undisturbed sample_max_arguments square_ring
                      None initialState)).
Proof.
  apply (handleRunClick_blank sample_max_arguments
           (setWktInput (str "   ")
              (processWKT_undisturbed sample_max_arguments square_ring None
                 initialState))).
  vm_compute. reflexivity.
Defined.

End HandlerFacts.
